(** * The queue engine of uq ([queue/uQueue.go])

    A shallow embedding of the top-level registry of the broker: the
    [UnitedQueue] value, its start-up recovery ([loadQueue], [loadTopic]),
    the administrative calls ([Create], [createTopic]), the delivery entry
    points ([Push], [Pop], [Confirm]) and the shutdown path ([Close],
    [exportTopics]).

    The engine is sequential code over three collaborators, none of which
    lives in [uQueue.go]:
    - the storage adapter ([store.Storage], a Go interface), a type class;
    - the gob codec ([encoding/gob]), a type class per record type;
    - the topic layer ([topic.go], [line.go]), a type class of the methods
      the engine calls on a [*topic].
    Go's randomised iteration order over a map is a fourth parameter.

    Pointers: the engine owns its topics and every topic owns its lines, and
    nothing in this file aliases them, so [map[string]*topic] is a
    [gmap string topic] and a method that mutates [*t] writes the new value
    back under the key it was found at.  The mutex [mu] only brackets
    [Create] and [Close]; the embedding is of one call at a time and leaves
    it out. *)

From Stdlib.Strings Require Import Ascii String Byte.
From stdpp Require Import gmap strings list fin_maps pretty.

Local Open Scope string_scope.
Local Open Scope N_scope.
Local Open Scope list_scope.

#[local] Set Warnings "-clear-no-such-hyp".

(** ** Values shared with the collaborators *)

(** A Go [error] built by [errors.New]: its message. *)
Definition error : Type := string.

(** A Go [[]byte]; the nil slice and the empty slice are both [[]]. *)
Abbreviation bytes := (list byte).

(** A Go [(T, error)] result whose error is checked before the value. *)
Inductive Result (A : Type) : Type :=
| Ok (a : A)
| Err (e : error).
Arguments Ok {A} a.
Arguments Err {A} e.

Definition StorageKeyWord : string := "UnitedQueueKey".
Definition ErrTopicNotExisted : error := "Topic Not Existed".
Definition ErrLineNotExisted : error := "Line Not Existed".
Definition ErrTopicExisted : error := "Topic Has Existed".
Definition ErrLineExisted : error := "Line Has Existed".
Definition ErrNotDelivered : error := "Message Not Delivered".
Definition ErrKey : error := "Key Illegal".
Definition ErrNone : error := "No Message".

(** [store.Storage]: the byte-keyed store the engine is handed.  [Get] reads,
    [Set] and [Del] report an error or nil and leave a new store behind. *)
Class Storage (Store : Type) : Type := {
  storage_Get : Store → string → Result bytes;
  storage_Set : Store → string → bytes → option error * Store;
  storage_Del : Store → string → option error * Store;
  storage_Close : Store → Store
}.

(** [encoding/gob] at one record type: [Encoder.Encode] and
    [Decoder.Decode]. *)
Class Gob (A : Type) : Type := {
  gob_Encode : A → Result bytes;
  gob_Decode : bytes → Result A
}.

(** What the engine relies on from gob when it reads back its own writes: an
    encoding is never empty and decodes to the value encoded. *)
Class GobRoundTrip (A : Type) `{Gob A} : Prop :=
  gob_round_trip : ∀ (a : A) (b : bytes),
    gob_Encode a = Ok b → b ≠ [] ∧ gob_Decode b = Ok a.

(** [strings.Split(s, sep)] for a one-byte separator, the only use in this
    file: the pieces of [s] between the occurrences of [sep], one more piece
    than there are occurrences. *)
Fixpoint Split (s : string) (sep : ascii) : list string :=
  match s with
  | EmptyString => [EmptyString]
  | String c rest =>
      if decide (c = sep) then EmptyString :: Split rest sep
      else match Split rest sep with
           | piece :: pieces => String c piece :: pieces
           | [] => [String c EmptyString]
           end
  end.

(** ** Records *)

Record unitedQueueStore : Type := { Topics : list string }.

(** Modelled from the spec: [topicStore] is declared in [topic.go]; the
    fields are those [loadTopic] reads, with the types of section 6
    (head and tail are uint64 offsets). *)
Record topicStore : Type := { Head : N; Tail : N; Lines : list string }.

(** Modelled from the spec: [CreateRequest] and [ConfirmRequest] are declared
    outside [uQueue.go]; the fields are those [Create] and [Confirm] read.
    [Recycle] is a [time.Duration], a signed count of nanoseconds. *)
Record CreateRequest : Type :=
  { cr_TopicName : string; cr_LineName : string; cr_Recycle : Z }.

Record ConfirmRequest : Type :=
  { cf_TopicName : string; cf_LineName : string; cf_ID : N }.

(** A [chan bool] that is only ever made and closed. *)
Inductive chan : Type := ChanOpen | ChanClosed.

(** The fields of [topic] that [uQueue.go] writes.  The back pointer [q] is
    the engine itself: the topic layer reaches the storage adapter through
    it, which the embedding shows by handing the store to every method of
    the layer.  [running] records that [start] has launched the background
    loop. *)
Record topic (line : Type) : Type := Topic {
  name : string;
  lines : gmap string line;
  head : N;
  tail : N;
  quit : chan;
  running : bool
}.
Arguments Topic {line}.
Arguments name {line}.
Arguments lines {line}.
Arguments head {line}.
Arguments tail {line}.
Arguments quit {line}.
Arguments running {line}.

(** The methods of [*topic] that [uQueue.go] calls and [topic.go] defines.
    Each takes the topic and the store behind [t.q] and returns what the Go
    method returns together with the topic and the store it leaves. *)
Class TopicLayer (Store line lineStore : Type) : Type := {
  topic_loadLine : topic line → string → lineStore → Result line;
  topic_CreateLine :
    topic line → string → Z → Store → option error * topic line * Store;
  topic_Push : topic line → bytes → Store → option error * topic line * Store;
  topic_pop :
    topic line → string → Store → (N * bytes * option error) * topic line * Store;
  topic_confirm :
    topic line → string → N → Store → option error * topic line * Store;
  topic_exportLines : topic line → Store → option error * topic line * Store;
  topic_exportTopic : topic line → Store → option error * topic line * Store
}.

(** The three [for ... range u.topics] loops of the file.  Go leaves the
    order of a map range unspecified, so each loop has an order of its own. *)
Inductive range_site : Type :=
| RangeGenQueueStore
| RangeClose
| RangeExportTopics.

Class MapRange (line : Type) : Type :=
  range_keys : range_site → gmap string (topic line) → list string.

(** A range visits every key of the map once. *)
Class MapRangeOk (line : Type) `{MapRange line} : Prop :=
  range_keys_perm : ∀ site (m : gmap string (topic line)),
    range_keys site m ≡ₚ elements (dom m).

(** The calls by which the engine acts on a collaborator, as it makes them:
    writes to and the closing of the store, the closing of a quit channel,
    and the methods of the topic layer that may write.  The two exports
    carry whether they returned nil. *)
Inductive call : Type :=
| StorageSet (key : string) (data : bytes)
| StorageDel (key : string)
| StorageClose
| CloseQuit (topicName : string)
| TopicCreateLine (topicName lineName : string) (recycle : Z)
| TopicPush (topicName : string) (data : bytes)
| TopicPop (topicName lineName : string)
| TopicConfirm (topicName lineName : string) (id : N)
| TopicExportLines (topicName : string) (ok : bool)
| TopicExportTopic (topicName : string) (ok : bool).

(** ** The engine *)

Section Engine.
Context {Store line lineStore : Type}.
Context `{!Storage Store} `{!TopicLayer Store line lineStore} `{!MapRange line}.
Context `{!Gob unitedQueueStore} `{!Gob topicStore} `{!Gob lineStore}.

(** [UnitedQueue].  [trace] is not a field of the Go struct: it lists the
    calls made to the collaborators so far, oldest first. *)
Record UnitedQueue : Type := {
  topics : gmap string (topic line);
  storage : Store;
  trace : list call
}.

Definition set_topics (m : gmap string (topic line)) (u : UnitedQueue)
  : UnitedQueue :=
  {| topics := m; storage := storage u; trace := trace u |}.

Definition set_storage (st : Store) (u : UnitedQueue) : UnitedQueue :=
  {| topics := topics u; storage := st; trace := trace u |}.

Definition emit (c : call) (u : UnitedQueue) : UnitedQueue :=
  {| topics := topics u; storage := storage u; trace := trace u ++ [c] |}.

(** Modelled from the spec: [topic.start] is defined in [topic.go]; it
    launches the topic's background loop (section 4.2) and returns. *)
Definition start (t : topic line) : topic line :=
  Topic (name t) (lines t) (head t) (tail t) (quit t) true.

(** [err == nil]. *)
Definition is_nil (err : option error) : bool :=
  match err with None => true | Some _ => false end.

(** [close(t.quit)]: closing a closed channel panics, shown as [None]. *)
Definition close_chan (t : topic line) : option (topic line) :=
  match quit t with
  | ChanOpen =>
      Some (Topic (name t) (lines t) (head t) (tail t) ChanClosed (running t))
  | ChanClosed => None
  end.

(** *** Start-up recovery *)

(** The body of the loop over [topicStoreValue.Lines] in [loadTopic]:
    [t] is the topic under construction, whose [lines] field is not yet
    assigned, and [acc] is the local map [lines]. *)
Definition loadTopic_line (st : Store) (t : topic line)
    (acc : gmap string line) (lineName : string) : gmap string line :=
  let lineStoreKey := name t +:+ "/" +:+ lineName in
  match storage_Get st lineStoreKey with
  | Err _ => acc
  | Ok lineStoreData =>
      if decide (length lineStoreData = 0%nat) then acc
      else match gob_Decode lineStoreData with
           | Err _ => acc
           | Ok lineStoreValue =>
               match topic_loadLine t lineName lineStoreValue with
               | Err _ => acc
               | Ok l => <[lineName := l]> acc
               end
           end
  end.

Definition loadTopic (u : UnitedQueue) (topicName : string)
    (topicStoreValue : topicStore) : Result (topic line) :=
  let t := Topic topicName ∅ (Head topicStoreValue) (Tail topicStoreValue)
                 ChanOpen false in
  let lines :=
    fold_left (loadTopic_line (storage u) t) (Lines topicStoreValue) ∅ in
  let t := Topic (name t) lines (head t) (tail t) (quit t) (running t) in
  Ok (start t).

(** The body of the loop over [unitedQueueStoreValue.Topics]. *)
Definition loadQueue_topic (u : UnitedQueue) (topicName : string)
  : UnitedQueue :=
  match storage_Get (storage u) topicName with
  | Err _ => u
  | Ok topicStoreData =>
      if decide (length topicStoreData = 0%nat) then u
      else match gob_Decode topicStoreData with
           | Err _ => u
           | Ok topicStoreValue =>
               match loadTopic u topicName topicStoreValue with
               | Err _ => u
               | Ok t => set_topics (<[topicName := t]> (topics u)) u
               end
           end
  end.

Definition loadQueue (u : UnitedQueue) : option error * UnitedQueue :=
  match storage_Get (storage u) StorageKeyWord with
  | Err _ => (None, u)
  | Ok unitedQueueStoreData =>
      if decide (0 < length unitedQueueStoreData)%nat then
        match gob_Decode unitedQueueStoreData with
        | Ok unitedQueueStoreValue =>
            (None, fold_left loadQueue_topic (Topics unitedQueueStoreValue) u)
        | Err _ => (None, u)
        end
      else (None, u)
  end.

Definition NewUnitedQueue (st : Store) : Result UnitedQueue :=
  let u := {| topics := ∅; storage := st; trace := [] |} in
  match loadQueue u with
  | (Some err, _) => Err err
  | (None, u) => Ok u
  end.

(** *** Creation *)

Definition newTopic (u : UnitedQueue) (name : string)
  : Result (topic line) :=
  Ok (start (Topic name ∅ 0 0 ChanOpen false)).

Definition genQueueStore (u : UnitedQueue) : Result unitedQueueStore :=
  Ok {| Topics := range_keys RangeGenQueueStore (topics u) |}.

Definition exportQueue (u : UnitedQueue) : option error * UnitedQueue :=
  match genQueueStore u with
  | Err err => (Some err, u)
  | Ok queueStoreValue =>
      match gob_Encode queueStoreValue with
      | Err err => (Some err, u)
      | Ok buffer =>
          let '(err, st) := storage_Set (storage u) StorageKeyWord buffer in
          (err, emit (StorageSet StorageKeyWord buffer) (set_storage st u))
      end
  end.

Definition createTopic (u : UnitedQueue) (name : string)
  : option error * UnitedQueue :=
  match topics u !! name with
  | Some _ => (Some ErrTopicExisted, u)
  | None =>
      match newTopic u name with
      | Err err => (Some err, u)
      | Ok t =>
          let u := set_topics (<[name := t]> (topics u)) u in
          match exportQueue u with
          | (Some err, u) => (Some err, set_topics (delete name (topics u)) u)
          | (None, u) => (None, u)
          end
      end
  end.

(** The engine after a method of the topic layer has run on the topic
    registered under [key]: the topic was mutated in place, the store is
    the one behind the engine, and the call is on the trace. *)
Definition put_topic (key : string) (t : topic line) (st : Store) (c : call)
    (u : UnitedQueue) : UnitedQueue :=
  emit c (set_storage st (set_topics (<[key := t]> (topics u)) u)).

Definition run_topic {A : Type} (c : call) (key : string)
    (r : A * topic line * Store) (u : UnitedQueue) : A * UnitedQueue :=
  let '(a, t, st) := r in (a, put_topic key t st c u).

Definition Create (u : UnitedQueue) (cr : CreateRequest)
  : option error * UnitedQueue :=
  if decide (cr_LineName cr ≠ "") then
    match topics u !! cr_TopicName cr with
    | None => (Some ErrTopicNotExisted, u)
    | Some t =>
        run_topic
          (TopicCreateLine (cr_TopicName cr) (cr_LineName cr) (cr_Recycle cr))
          (cr_TopicName cr)
          (topic_CreateLine t (cr_LineName cr) (cr_Recycle cr) (storage u)) u
    end
  else if decide (cr_TopicName cr ≠ "") then createTopic u (cr_TopicName cr)
  else (Some ErrKey, u).

(** *** Delivery *)

Definition Push (u : UnitedQueue) (name : string) (data : bytes)
  : option error * UnitedQueue :=
  match topics u !! name with
  | None => (Some ErrTopicNotExisted, u)
  | Some t =>
      run_topic (TopicPush name data) name (topic_Push t data (storage u)) u
  end.

Definition Pop (u : UnitedQueue) (name : string)
  : (N * bytes * option error) * UnitedQueue :=
  let parts := Split name "/" in
  if decide (length parts ≠ 2%nat) then ((0, [], Some ErrKey), u)
  else
    let tName := nth 0 parts "" in
    let lName := nth 1 parts "" in
    match topics u !! tName with
    | None => ((0, [], Some ErrTopicNotExisted), u)
    | Some t =>
        run_topic (TopicPop tName lName) tName
                  (topic_pop t lName (storage u)) u
    end.

Definition Confirm (u : UnitedQueue) (cr : ConfirmRequest)
  : option error * UnitedQueue :=
  match topics u !! cf_TopicName cr with
  | None => (Some ErrTopicNotExisted, u)
  | Some t =>
      run_topic (TopicConfirm (cf_TopicName cr) (cf_LineName cr) (cf_ID cr))
                (cf_TopicName cr)
                (topic_confirm t (cf_LineName cr) (cf_ID cr) (storage u)) u
  end.

Definition setData (u : UnitedQueue) (key : string) (data : bytes)
  : option error * UnitedQueue :=
  let '(err, st) := storage_Set (storage u) key data in
  (err, emit (StorageSet key data) (set_storage st u)).

Definition getData (u : UnitedQueue) (key : string) : Result bytes :=
  storage_Get (storage u) key.

Definition delData (u : UnitedQueue) (key : string)
  : option error * UnitedQueue :=
  let '(err, st) := storage_Del (storage u) key in
  (err, emit (StorageDel key) (set_storage st u)).

(** *** Shutdown *)

(** The body of the first loop of [Close], for the topic the range yields
    under [key]; [None] is the panic of [close_chan].  A range yields keys
    of the map only, so the first branch is never taken by [Close]. *)
Definition Close_quit (u : UnitedQueue) (key : string)
  : option UnitedQueue :=
  match topics u !! key with
  | None => Some u
  | Some t =>
      match close_chan t with
      | None => None
      | Some t => Some (emit (CloseQuit key)
                          (set_topics (<[key := t]> (topics u)) u))
      end
  end.

Fixpoint Close_quits (keys : list string) (u : UnitedQueue)
  : option UnitedQueue :=
  match keys with
  | [] => Some u
  | key :: keys =>
      match Close_quit u key with
      | None => None
      | Some u => Close_quits keys u
      end
  end.

(** The body of the loop of [exportTopics], for the topic the range yields
    under [key]: [exportTopic] runs only when [exportLines] returned nil;
    either way the loop goes on. *)
Definition exportTopics_topic (u : UnitedQueue) (key : string)
  : UnitedQueue :=
  match topics u !! key with
  | None => u
  | Some t =>
      let '(err, t, st) := topic_exportLines t (storage u) in
      let u := put_topic key t st (TopicExportLines key (is_nil err)) u in
      match err with
      | Some _ => u
      | None =>
          let '(err, t, st) := topic_exportTopic t (storage u) in
          put_topic key t st (TopicExportTopic key (is_nil err)) u
      end
  end.

Definition exportTopics (u : UnitedQueue) : option error * UnitedQueue :=
  (None,
   fold_left exportTopics_topic (range_keys RangeExportTopics (topics u)) u).

Definition Close (u : UnitedQueue) : option UnitedQueue :=
  match Close_quits (range_keys RangeClose (topics u)) u with
  | None => None
  | Some u =>
      let '(_, u) := exportTopics u in
      Some (emit StorageClose (set_storage (storage_Close (storage u)) u))
  end.
End Engine.

Arguments UnitedQueue Store line : clear implicits.

(** ** Collaborators to run the engine on

    An in-memory store with two failure switches, a length-prefixed codec,
    a small topic layer and a key order: enough to evaluate every engine
    call on concrete inputs. *)

Module Mem.
(** [cells] holds the stored bytes; a store with [denies] set fails every
    [Set] and [Del]; [unreadable] keys fail [Get]. *)
Record store : Type := {
  cells : gmap string bytes;
  unreadable : list string;
  denies : bool;
  closed : bool
}.

Definition ErrNotFound : error := "key not found".
Definition ErrDenied : error := "write denied".
Definition ErrRead : error := "read failed".

Definition Get (st : store) (key : string) : Result bytes :=
  if decide (key ∈ unreadable st) then Err ErrRead
  else match cells st !! key with
       | Some data => Ok data
       | None => Err ErrNotFound
       end.

Definition Set_ (st : store) (key : string) (data : bytes)
  : option error * store :=
  if denies st then (Some ErrDenied, st)
  else (None, {| cells := <[key := data]> (cells st);
                 unreadable := unreadable st;
                 denies := denies st; closed := closed st |}).

Definition Del (st : store) (key : string) : option error * store :=
  if denies st then (Some ErrDenied, st)
  else (None, {| cells := delete key (cells st);
                 unreadable := unreadable st;
                 denies := denies st; closed := closed st |}).

Definition Close (st : store) : store :=
  {| cells := cells st; unreadable := unreadable st;
     denies := denies st; closed := true |}.

Definition new (kvs : list (string * bytes)) : store :=
  {| cells := list_to_map kvs; unreadable := []; denies := false;
     closed := false |}.

Definition deny (st : store) : store :=
  {| cells := cells st; unreadable := unreadable st;
     denies := true; closed := closed st |}.
End Mem.

#[global] Instance mem_Storage : Storage Mem.store :=
  {| storage_Get := Mem.Get; storage_Set := Mem.Set_;
     storage_Del := Mem.Del; storage_Close := Mem.Close |}.

Module Wire.
(** Numbers in unary, closed by a zero byte; a string as its length and
    its bytes; a list as its length and its items. *)
Fixpoint put_nat (n : nat) : bytes :=
  match n with
  | O => [x00]
  | S n => x01 :: put_nat n
  end.

Fixpoint get_nat (b : bytes) : option (nat * bytes) :=
  match b with
  | [] => None
  | c :: rest =>
      if Byte.eqb c x00 then Some (O, rest)
      else if Byte.eqb c x01 then
        match get_nat rest with
        | Some (n, rest) => Some (S n, rest)
        | None => None
        end
      else None
  end.

Definition put_N (n : N) : bytes := put_nat (N.to_nat n).

Definition get_N (b : bytes) : option (N * bytes) :=
  match get_nat b with
  | Some (n, rest) => Some (N.of_nat n, rest)
  | None => None
  end.

Definition put_Z (z : Z) : bytes :=
  (if decide (z < 0)%Z then x01 else x00) :: put_nat (Z.abs_nat z).

Definition get_Z (b : bytes) : option (Z * bytes) :=
  match b with
  | [] => None
  | c :: rest =>
      match get_nat rest with
      | Some (n, rest) =>
          Some (if Byte.eqb c x00 then Z.of_nat n else (- Z.of_nat n)%Z, rest)
      | None => None
      end
  end.

Definition put_string (s : string) : bytes :=
  let body := list_byte_of_string s in
  put_nat (length body) ++ body.

Definition get_string (b : bytes) : option (string * bytes) :=
  match get_nat b with
  | Some (n, rest) =>
      if decide (n ≤ length rest)%nat
      then Some (string_of_list_byte (take n rest), drop n rest)
      else None
  | None => None
  end.

Definition put_strings (l : list string) : bytes :=
  put_nat (length l) ++ concat (put_string <$> l).

Fixpoint get_items (n : nat) (b : bytes) : option (list string * bytes) :=
  match n with
  | O => Some ([], b)
  | S n =>
      match get_string b with
      | Some (s, rest) =>
          match get_items n rest with
          | Some (l, rest) => Some (s :: l, rest)
          | None => None
          end
      | None => None
      end
  end.

Definition get_strings (b : bytes) : option (list string * bytes) :=
  match get_nat b with
  | Some (n, rest) => get_items n rest
  | None => None
  end.

Definition ErrCorrupt : error := "corrupt record".

(** A decoder accepts a record only if no byte is left over. *)
Definition whole {A : Type} (r : option (A * bytes)) : Result A :=
  match r with
  | Some (a, []) => Ok a
  | _ => Err ErrCorrupt
  end.

Definition put_queueStore (q : unitedQueueStore) : bytes :=
  put_strings (Topics q).

Definition get_queueStore (b : bytes) : option (unitedQueueStore * bytes) :=
  match get_strings b with
  | Some (l, rest) => Some ({| Topics := l |}, rest)
  | None => None
  end.

Definition put_topicStore (t : topicStore) : bytes :=
  put_N (Head t) ++ put_N (Tail t) ++ put_strings (Lines t).

Definition get_topicStore (b : bytes) : option (topicStore * bytes) :=
  match get_N b with
  | Some (h, rest) =>
      match get_N rest with
      | Some (t, rest) =>
          match get_strings rest with
          | Some (l, rest) =>
              Some ({| Head := h; Tail := t; Lines := l |}, rest)
          | None => None
          end
      | None => None
      end
  | None => None
  end.
End Wire.

#[global] Instance wire_queue : Gob unitedQueueStore :=
  {| gob_Encode q := Ok (Wire.put_queueStore q);
     gob_Decode b := Wire.whole (Wire.get_queueStore b) |}.

#[global] Instance wire_topic : Gob topicStore :=
  {| gob_Encode t := Ok (Wire.put_topicStore t);
     gob_Decode b := Wire.whole (Wire.get_topicStore b) |}.

Module Sim.
(** Modelled from the spec: [topic.go] and [line.go] are not part of the
    sources; this topic layer follows sections 4.2 and 4.3 for a line that
    tracks nothing in flight (one whose recycle timeout is 0): a push
    writes the payload under ["<topic>:<offset>"] and advances [tail], a
    new line starts at [tail], a pop hands out the offset at the cursor,
    and a confirm finds nothing to confirm. *)
Record line : Type := { cursor : N; recycle : Z }.

Record lineStore : Type := { ls_Head : N; ls_Recycle : Z }.

Definition put_lineStore (l : lineStore) : bytes :=
  Wire.put_N (ls_Head l) ++ Wire.put_Z (ls_Recycle l).

Definition get_lineStore (b : bytes) : option (lineStore * bytes) :=
  match Wire.get_N b with
  | Some (h, rest) =>
      match Wire.get_Z rest with
      | Some (r, rest) => Some ({| ls_Head := h; ls_Recycle := r |}, rest)
      | None => None
      end
  | None => None
  end.

Definition set_tail (n : N) (t : topic line) : topic line :=
  Topic (name t) (lines t) (head t) n (quit t) (running t).

Definition set_lines (m : gmap string line) (t : topic line) : topic line :=
  Topic (name t) m (head t) (tail t) (quit t) (running t).

Definition message_key (t : topic line) (offset : N) : string :=
  name t +:+ ":" +:+ pretty offset.

Definition loadLine (t : topic line) (lineName : string) (v : lineStore)
  : Result line :=
  Ok {| cursor := ls_Head v; recycle := ls_Recycle v |}.

Definition exportTopic (t : topic line) (st : Mem.store)
  : option error * topic line * Mem.store :=
  let record :=
    {| Head := head t; Tail := tail t; Lines := elements (dom (lines t)) |} in
  let '(err, st) := Mem.Set_ st (name t) (Wire.put_topicStore record) in
  (err, t, st).

Definition exportLine (t : topic line) (acc : option error * Mem.store)
    (entry : string * line) : option error * Mem.store :=
  let record :=
    {| ls_Head := cursor entry.2; ls_Recycle := recycle entry.2 |} in
  let '(err, st) :=
    Mem.Set_ acc.2 (name t +:+ "/" +:+ entry.1) (put_lineStore record) in
  (match acc.1 with Some e => Some e | None => err end, st).

Definition exportLines (t : topic line) (st : Mem.store)
  : option error * topic line * Mem.store :=
  let '(err, st) :=
    fold_left (exportLine t) (map_to_list (lines t)) (None, st) in
  (err, t, st).

Definition CreateLine (t : topic line) (lineName : string) (r : Z)
    (st : Mem.store) : option error * topic line * Mem.store :=
  match lines t !! lineName with
  | Some _ => (Some ErrLineExisted, t, st)
  | None =>
      let l := {| cursor := tail t; recycle := r |} in
      exportTopic (set_lines (<[lineName := l]> (lines t)) t) st
  end.

Definition Push (t : topic line) (data : bytes) (st : Mem.store)
  : option error * topic line * Mem.store :=
  match Mem.Set_ st (message_key t (tail t)) data with
  | (Some err, st) => (Some err, t, st)
  | (None, st) => (None, set_tail (tail t + 1) t, st)
  end.

Definition pop (t : topic line) (lineName : string) (st : Mem.store)
  : (N * bytes * option error) * topic line * Mem.store :=
  match lines t !! lineName with
  | None => ((0, [], Some ErrLineNotExisted), t, st)
  | Some l =>
      if decide (cursor l < tail t) then
        match Mem.Get st (message_key t (cursor l)) with
        | Err err => ((0, [], Some err), t, st)
        | Ok data =>
            let l' := {| cursor := cursor l + 1; recycle := recycle l |} in
            ((cursor l, data, None),
             set_lines (<[lineName := l']> (lines t)) t, st)
        end
      else ((0, [], Some ErrNone), t, st)
  end.

Definition confirm (t : topic line) (lineName : string) (id : N)
    (st : Mem.store) : option error * topic line * Mem.store :=
  match lines t !! lineName with
  | None => (Some ErrLineNotExisted, t, st)
  | Some _ => (Some ErrNotDelivered, t, st)
  end.

(** The second and third loops walk the keys in opposite orders. *)
Definition keys (site : range_site) (m : gmap string (topic line))
  : list string :=
  match site with
  | RangeExportTopics => reverse (elements (dom m))
  | _ => elements (dom m)
  end.

Definition engine : Type := UnitedQueue Mem.store line.
End Sim.

#[global] Instance sim_lineStore : Gob Sim.lineStore :=
  {| gob_Encode l := Ok (Sim.put_lineStore l);
     gob_Decode b := Wire.whole (Sim.get_lineStore b) |}.

#[global] Instance sim_TopicLayer : TopicLayer Mem.store Sim.line Sim.lineStore :=
  {| topic_loadLine := Sim.loadLine;
     topic_CreateLine := Sim.CreateLine;
     topic_Push := Sim.Push;
     topic_pop := Sim.pop;
     topic_confirm := Sim.confirm;
     topic_exportLines := Sim.exportLines;
     topic_exportTopic := Sim.exportTopic |}.

#[global] Instance sim_MapRange : MapRange Sim.line := Sim.keys.

(** Engines and requests for the runs. *)
Module Run.
Definition fresh : Sim.engine :=
  {| topics := ∅; storage := Mem.new []; trace := [] |}.

(** An engine whose store refuses every write. *)
Definition denied : Sim.engine :=
  {| topics := ∅; storage := Mem.deny (Mem.new []); trace := [] |}.

Definition topic_t : CreateRequest :=
  {| cr_TopicName := "t"; cr_LineName := ""; cr_Recycle := 0 |}.

Definition line_l : CreateRequest :=
  {| cr_TopicName := "t"; cr_LineName := "l"; cr_Recycle := 0 |}.

Definition line_only : CreateRequest :=
  {| cr_TopicName := ""; cr_LineName := "l"; cr_Recycle := 0 |}.

Definition nothing : CreateRequest :=
  {| cr_TopicName := ""; cr_LineName := ""; cr_Recycle := 0 |}.

Definition confirm_0 : ConfirmRequest :=
  {| cf_TopicName := "t"; cf_LineName := "l"; cf_ID := 0 |}.

(** Topic ["t"], then line ["l"] on it, then one message. *)
Definition with_topic : Sim.engine := (Create fresh topic_t).2.
Definition with_line : Sim.engine := (Create with_topic line_l).2.
Definition pushed : Sim.engine := (Push with_line "t" [x6d; x31]).2.

(** The same engine after its topics have been exported, and after it has
    been closed. *)
Definition exported : Sim.engine := (exportTopics pushed).2.
Definition shut : Sim.engine := default pushed (Close pushed).

(** A store that fails every read of the engine record. *)
Definition unreadable : Mem.store :=
  {| Mem.cells := {[ StorageKeyWord := Wire.put_queueStore {| Topics := ["t"] |} ]};
     Mem.unreadable := [StorageKeyWord];
     Mem.denies := false; Mem.closed := false |}.

(** A store that lists, and holds a record for, the empty topic name. *)
Definition nameless : Mem.store :=
  Mem.new [(StorageKeyWord, Wire.put_queueStore {| Topics := [""] |});
           ("", Wire.put_topicStore {| Head := 0; Tail := 0; Lines := [] |})].

Definition queue_t : unitedQueueStore := {| Topics := ["t"] |}.
Definition record_t : topicStore :=
  {| Head := 0; Tail := 1; Lines := ["l"] |}.

(** A store whose engine record lists three topics: ["a"] has a record and
    two lines, of which ["a/m"] has no record; ["b"] has no record; the
    record of ["c"] is not an encoding. *)
Definition listing : unitedQueueStore := {| Topics := ["a"; "b"; "c"] |}.
Definition record_a : topicStore :=
  {| Head := 0; Tail := 2; Lines := ["l"; "m"] |}.
Definition damaged : Mem.store :=
  Mem.new [(StorageKeyWord, Wire.put_queueStore listing);
           ("a", Wire.put_topicStore record_a);
           ("a/l", Sim.put_lineStore {| Sim.ls_Head := 1; Sim.ls_Recycle := 0 |});
           ("c", [x07])].
End Run.

(** ** What the engine needs from its collaborators *)

(** Modelled from the spec: the errors of the topic layer are those of
    sections 4.2 and 4.3 ([LineNotFound], [LineExists], [NoMessage],
    [NotDelivered]) and those of the store; [TopicNotFound] and [InvalidKey]
    are the engine's own. *)
Definition engine_error (err : option error) : Prop :=
  err = Some ErrTopicNotExisted ∨ err = Some ErrKey.

Class TopicLayerErrors (Store line lineStore : Type)
    `{!TopicLayer Store line lineStore} : Prop := {
  CreateLine_error : ∀ t lineName r (st : Store),
    ¬ engine_error (topic_CreateLine t lineName r st).1.1;
  Push_error : ∀ t data (st : Store),
    ¬ engine_error (topic_Push t data st).1.1;
  pop_error : ∀ t lineName (st : Store),
    ¬ engine_error (topic_pop t lineName st).1.1.2;
  confirm_error : ∀ t lineName id (st : Store),
    ¬ engine_error (topic_confirm t lineName id st).1.1
}.

(** A record as the recovery reads it: present, not empty and decodable. *)
Definition read_record {Store A : Type} `{!Storage Store} `{!Gob A}
    (st : Store) (key : string) : option A :=
  match storage_Get st key with
  | Err _ => None
  | Ok data =>
      if decide (length data = 0%nat) then None
      else match gob_Decode data with
           | Ok a => Some a
           | Err _ => None
           end
  end.

(** The number of occurrences of a byte in a string. *)
Fixpoint occurrences (sep : ascii) (s : string) : nat :=
  match s with
  | EmptyString => 0
  | String c rest =>
      (if decide (c = sep) then 1 else 0) + occurrences sep rest
  end.

(** The calls [exportTopics] makes for one topic. *)
Inductive export_calls (key : string) : list call → Prop :=
| export_lines_failed :
    export_calls key [TopicExportLines key false]
| export_lines_done (ok : bool) :
    export_calls key [TopicExportLines key true; TopicExportTopic key ok].

Definition is_create_line (c : call) : Prop :=
  match c with TopicCreateLine _ _ _ => True | _ => False end.

(** What [loadTopic] makes of the records it reads. *)
Section Recovered.
Context {Store line lineStore : Type}.
Context `{!Storage Store} `{!TopicLayer Store line lineStore}.
Context `{!Gob lineStore}.

(** The topic [loadTopic] hands to [loadLine]: named, with the stored head
    and tail, and no lines yet. *)
Definition bare_topic (topicName : string) (v : topicStore) : topic line :=
  Topic topicName ∅ (Head v) (Tail v) ChanOpen false.

(** The line [loadTopic] keeps under [lineName], if it keeps one: its
    record must be readable and [loadLine] must accept it. *)
Definition line_record (st : Store) (t : topic line) (lineName : string)
  : option line :=
  match read_record st (name t +:+ "/" +:+ lineName) with
  | None => None
  | Some v =>
      match topic_loadLine t lineName v with
      | Ok l => Some l
      | Err _ => None
      end
  end.

(** The topic [loadTopic] returns for a stored record. *)
Definition loaded_topic (st : Store) (topicName : string) (v : topicStore)
  : topic line :=
  Topic topicName
        (fold_left (loadTopic_line st (bare_topic topicName v)) (Lines v) ∅)
        (Head v) (Tail v) ChanOpen true.
End Recovered.

(** [strings.Join(parts, sep)] for a one-byte separator, the inverse of
    [Split]. *)
Fixpoint Join (parts : list string) (sep : ascii) : string :=
  match parts with
  | [] => EmptyString
  | [part] => part
  | part :: rest => part +:+ String sep (Join rest sep)
  end.

(** What [newTopic] and [loadTopic] give every topic they build, under the
    key it is registered at: its own name, a quit channel nobody has closed,
    and a background loop that has been started. *)
Definition started {line : Type} (m : gmap string (topic line)) : Prop :=
  ∀ key t, m !! key = Some t →
    name t = key ∧ quit t = ChanOpen ∧ running t = true.

(** A sequence of [Create] calls, each on the engine the one before left. *)
Definition Create_all {Store line lineStore : Type}
    `{!Storage Store} `{!TopicLayer Store line lineStore} `{!MapRange line}
    `{!Gob unitedQueueStore}
    (u : UnitedQueue Store line) (crs : list CreateRequest)
  : UnitedQueue Store line :=
  fold_left (λ u cr, (Create u cr).2) crs u.

(** An encoder that fails on every engine record. *)
Definition ErrEncode : error := "gob: encode failed".

Definition failing_queue_gob : Gob unitedQueueStore :=
  {| gob_Encode _ := Err ErrEncode;
     gob_Decode b := Wire.whole (Wire.get_queueStore b) |}.

(** * Properties *)

Section EngineFacts.
Context {Store line lineStore : Type}.
Context `{!Storage Store} `{!TopicLayer Store line lineStore}.
Context `{!MapRange line}.
Context `{!Gob unitedQueueStore} `{!Gob topicStore} `{!Gob lineStore}.

Implicit Types (u : UnitedQueue Store line) (t : topic line) (st : Store).

(** *** Small facts about the state *)

Lemma loadQueue_error u : (loadQueue u).1 = None.
Proof.
  unfold loadQueue.
  destruct (storage_Get _ _) as [data|]; [|done].
  case_decide; [|done]. by destruct (gob_Decode data).
Qed.

Lemma fold_loadQueue_topic_storage names u :
  storage (fold_left loadQueue_topic names u) = storage u
  ∧ trace (fold_left loadQueue_topic names u) = trace u.
Proof.
  revert u. induction names as [|n names IH]; intros u; [done|].
  simpl. destruct (IH (loadQueue_topic u n)) as [-> ->].
  unfold loadQueue_topic.
  destruct (storage_Get _ _) as [data|]; [|done].
  case_decide; [done|]. by destruct (gob_Decode data).
Qed.

Lemma exportQueue_topics u :
  topics (exportQueue u).2 = topics u.
Proof.
  unfold exportQueue. simpl.
  destruct (gob_Encode _) as [buffer|]; [|done].
  by destruct (storage_Set _ _ _).
Qed.

Lemma createTopic_registered u name t :
  topics u !! name = Some t → createTopic u name = (Some ErrTopicExisted, u).
Proof. intros Ht. unfold createTopic. by rewrite Ht. Qed.

(** (C9) [loadQueue] returns nil whatever the store holds, so
    [NewUnitedQueue] always returns an engine; when the engine record
    cannot be read (a [Get] error, no data, or data gob rejects) that
    engine has an empty topic map. *)
Theorem loadQueue_always_nil :
  (∀ u, (loadQueue u).1 = None)
  ∧ (∀ st, ∃ u, NewUnitedQueue st = Ok u ∧ storage u = st)
  ∧ (∀ st,
       (∃ err, storage_Get st StorageKeyWord = Err err)
       ∨ storage_Get st StorageKeyWord = Ok []
       ∨ (∃ data err, storage_Get st StorageKeyWord = Ok data
                      ∧ gob_Decode (A:=unitedQueueStore) data = Err err) →
       NewUnitedQueue st = Ok {| topics := ∅; storage := st; trace := [] |}).
Proof.
  split; [exact loadQueue_error|]. split.
  - intros st. unfold NewUnitedQueue.
    pose proof (loadQueue_error {| topics := ∅; storage := st; trace := [] |}) as Hnil.
    destruct (loadQueue _) as [err u] eqn:Hload. simpl in Hnil. subst err.
    exists u. split; [done|].
    revert Hload. unfold loadQueue. simpl.
    destruct (storage_Get _ _) as [data|]; [|by intros [= <-]].
    case_decide; [|by intros [= <-]].
    destruct (gob_Decode data) as [v|]; [|by intros [= <-]].
    intros [= <-]. apply fold_loadQueue_topic_storage.
  - intros st Hbad. unfold NewUnitedQueue, loadQueue. simpl.
    destruct Hbad as [[err ->]|[->|(data & err & -> & Hdec)]]; [done| |].
    + case_decide; [simpl in *; lia|done].
    + rewrite Hdec. by case_decide.
Qed.

(** (C10) A request that names a line but no topic takes the line branch:
    with nothing registered under the empty name it fails with
    [ErrTopicNotExisted], not [ErrKey], and changes nothing. *)
Theorem Create_line_without_topic u cr :
  cr_LineName cr ≠ "" →
  cr_TopicName cr = "" →
  topics u !! "" = None →
  Create u cr = (Some ErrTopicNotExisted, u)
  ∧ (Create u cr).1 ≠ Some ErrKey.
Proof.
  intros Hline Htopic Hnone.
  assert (Create u cr = (Some ErrTopicNotExisted, u)) as ->; [|done].
  unfold Create. rewrite decide_True by done. by rewrite Htopic, Hnone.
Qed.

(** *** Creation *)

Lemma createTopic_trace u name :
  trace (createTopic u name).2 = trace u
  ∨ ∃ buffer,
      trace (createTopic u name).2
      = trace u ++ [StorageSet StorageKeyWord buffer].
Proof.
  unfold createTopic. destruct (topics u !! name); [by left|]. simpl.
  unfold exportQueue. simpl.
  destruct (gob_Encode _) as [buffer|]; [|by left]. simpl.
  destruct (storage_Set _ _ _) as [[err|] st]; right; by exists buffer.
Qed.

(** (C5) [Create] takes one branch per request.  With a line name it is
    the line branch: no topic is registered or removed, and either the
    topic is unknown and nothing happens, or [CreateLine] is called once on
    it.  With a topic name only it is [createTopic], which never calls
    [CreateLine].  With neither it fails with [ErrKey] and does nothing. *)
Theorem Create_one_branch u cr :
  (cr_LineName cr ≠ "" →
     dom (topics (Create u cr).2) = dom (topics u)
     ∧ match topics u !! cr_TopicName cr with
       | None => Create u cr = (Some ErrTopicNotExisted, u)
       | Some t =>
           let r := topic_CreateLine t (cr_LineName cr) (cr_Recycle cr)
                                     (storage u) in
           (Create u cr).1 = r.1.1
           ∧ trace (Create u cr).2
             = trace u ++ [TopicCreateLine (cr_TopicName cr) (cr_LineName cr)
                                           (cr_Recycle cr)]
       end)
  ∧ (cr_LineName cr = "" → cr_TopicName cr ≠ "" →
       Create u cr = createTopic u (cr_TopicName cr)
       ∧ ∃ calls, trace (Create u cr).2 = trace u ++ calls
                  ∧ Forall (λ c, ¬ is_create_line c) calls)
  ∧ (cr_LineName cr = "" → cr_TopicName cr = "" →
       Create u cr = (Some ErrKey, u)).
Proof.
  split; [|split].
  - intros Hline. unfold Create. rewrite decide_True by done.
    destruct (topics u !! cr_TopicName cr) as [t|] eqn:Ht; [|done].
    destruct (topic_CreateLine _ _ _ _) as [[err t'] st']. simpl.
    split; [|done]. rewrite dom_insert_L.
    apply elem_of_dom_2 in Ht. set_solver.
  - intros Hline Htopic.
    assert (Create u cr = createTopic u (cr_TopicName cr)) as ->.
    { unfold Create. rewrite decide_False by (by intros Hne; apply Hne).
      by rewrite decide_True. }
    split; [done|].
    destruct (createTopic_trace u (cr_TopicName cr)) as [->|[buffer ->]].
    + exists []. split; [by rewrite app_nil_r|constructor].
    + exists [StorageSet StorageKeyWord buffer]. split; [done|].
      constructor; [simpl; tauto|constructor].
  - intros Hline Htopic. unfold Create.
    rewrite decide_False by (by intros Hne; apply Hne).
    by rewrite decide_False by (by intros Hne; apply Hne).
Qed.

(** (C1) When the write of the engine record fails in [createTopic], the
    topic just registered is deleted again: the topic map is the one before
    the call, and the error of the store is what [createTopic], and
    [Create] above it, return. *)
Theorem createTopic_write_failure u name recycle q buffer err st :
  topics u !! name = None →
  genQueueStore
    (set_topics (<[name := start (Topic name ∅ 0 0 ChanOpen false)]> (topics u)) u)
  = Ok q →
  gob_Encode q = Ok buffer →
  storage_Set (storage u) StorageKeyWord buffer = (Some err, st) →
  createTopic u name
  = (Some err, emit (StorageSet StorageKeyWord buffer) (set_storage st u))
  ∧ topics (createTopic u name).2 = topics u
  ∧ (name ≠ "" →
     Create u {| cr_TopicName := name; cr_LineName := "";
                 cr_Recycle := recycle |}
     = (Some err, emit (StorageSet StorageKeyWord buffer) (set_storage st u))).
Proof.
  intros Hnew Hgen Henc Hset.
  assert (createTopic u name
          = (Some err, emit (StorageSet StorageKeyWord buffer)
                            (set_storage st u))) as Hcreate.
  { unfold createTopic. rewrite Hnew. simpl.
    unfold exportQueue. rewrite Hgen, Henc. simpl. rewrite Hset. simpl.
    f_equal. unfold set_topics, emit, set_storage. simpl.
    by rewrite delete_insert_id. }
  split; [done|]. split; [by rewrite Hcreate|].
  intros Hname. unfold Create. simpl. by rewrite decide_True.
Qed.

(** (C6, as amended) For a non-empty name [T]: if [T] is registered,
    [Create] of the topic fails with [ErrTopicExisted] and changes nothing,
    so nothing is written; if [T] is not registered and the engine record
    is encoded and written without error, [Create] returns nil, [T] maps to
    a topic with no lines and [head = tail = 0], and the record written
    lists [T] and the names registered before, each once. *)
Theorem Create_topic `{!MapRangeOk line} u T recycle :
  T ≠ "" →
  let cr := {| cr_TopicName := T; cr_LineName := ""; cr_Recycle := recycle |} in
  (is_Some (topics u !! T) → Create u cr = (Some ErrTopicExisted, u))
  ∧ (topics u !! T = None →
     ∀ q buffer st,
       genQueueStore
         (set_topics (<[T := start (Topic T ∅ 0 0 ChanOpen false)]> (topics u)) u)
       = Ok q →
       gob_Encode q = Ok buffer →
       storage_Set (storage u) StorageKeyWord buffer = (None, st) →
       Create u cr
       = (None,
          {| topics := <[T := Topic T ∅ 0 0 ChanOpen true]> (topics u);
             storage := st;
             trace := trace u ++ [StorageSet StorageKeyWord buffer] |})
       ∧ Topics q ≡ₚ T :: elements (dom (topics u))).
Proof.
  intros HT cr.
  assert (Create u cr = createTopic u T) as ->.
  { unfold Create. simpl. by rewrite decide_True. }
  split.
  - intros [t Ht]. by eapply createTopic_registered.
  - intros Hnew q buffer st Hgen Henc Hset. split.
    + unfold createTopic. rewrite Hnew. simpl.
      unfold exportQueue. rewrite Hgen, Henc. simpl. by rewrite Hset.
    + injection Hgen as <-. simpl.
      rewrite range_keys_perm, dom_insert_L.
      rewrite elements_union_singleton; [done|].
      by apply not_elem_of_dom.
Qed.

(** *** Delivery *)

Lemma Split_examples :
  Split "t/l" "/" = ["t"; "l"] ∧ Split "badpath" "/" = ["badpath"]
  ∧ Split "t/" "/" = ["t"; ""] ∧ Split "/l" "/" = [""; "l"]
  ∧ Split "" "/" = [""] ∧ Split "a/b/c" "/" = ["a"; "b"; "c"].
Proof. by vm_compute. Qed.

Lemma Split_length s sep : length (Split s sep) = S (occurrences sep s).
Proof.
  induction s as [|c rest IH]; [done|]. simpl.
  case_decide; simpl; [by rewrite IH|].
  destruct (Split rest sep); simpl in *; [lia|done].
Qed.

Lemma Pop_two_parts u path tName lName :
  Split path "/" = [tName; lName] →
  Pop u path
  = match topics u !! tName with
    | None => ((0, [], Some ErrTopicNotExisted), u)
    | Some t =>
        run_topic (TopicPop tName lName) tName
                  (topic_pop t lName (storage u)) u
    end.
Proof. intros Hparts. unfold Pop. by rewrite Hparts. Qed.

Lemma two_parts (parts : list string) :
  length parts = 2%nat → ∃ a b, parts = [a; b].
Proof. destruct parts as [|a [|b [|c parts]]]; naive_solver. Qed.

(** (C7) For a name that is not registered, [Push], [Confirm] and, once
    the path has two parts, [Pop] fail with [ErrTopicNotExisted] and leave
    the engine as it was, with no call made.  For a registered name each
    makes exactly one call, to the topic found, and returns what that call
    returns; as the topic layer has no [ErrTopicNotExisted] of its own, the
    result is not that error. *)
Theorem topic_lookup `{!TopicLayerErrors Store line lineStore} u :
  (∀ name data,
     match topics u !! name with
     | None => Push u name data = (Some ErrTopicNotExisted, u)
     | Some t =>
         (Push u name data).1 = (topic_Push t data (storage u)).1.1
         ∧ trace (Push u name data).2 = trace u ++ [TopicPush name data]
         ∧ (Push u name data).1 ≠ Some ErrTopicNotExisted
     end)
  ∧ (∀ cr,
     match topics u !! cf_TopicName cr with
     | None => Confirm u cr = (Some ErrTopicNotExisted, u)
     | Some t =>
         (Confirm u cr).1
         = (topic_confirm t (cf_LineName cr) (cf_ID cr) (storage u)).1.1
         ∧ trace (Confirm u cr).2
           = trace u ++ [TopicConfirm (cf_TopicName cr) (cf_LineName cr)
                                      (cf_ID cr)]
         ∧ (Confirm u cr).1 ≠ Some ErrTopicNotExisted
     end)
  ∧ (∀ path tName lName,
     Split path "/" = [tName; lName] →
     match topics u !! tName with
     | None => Pop u path = ((0, [], Some ErrTopicNotExisted), u)
     | Some t =>
         (Pop u path).1 = (topic_pop t lName (storage u)).1.1
         ∧ trace (Pop u path).2 = trace u ++ [TopicPop tName lName]
         ∧ (Pop u path).1.2 ≠ Some ErrTopicNotExisted
     end).
Proof.
  split; [|split].
  - intros name data. unfold Push.
    destruct (topics u !! name) as [t|]; [|done].
    pose proof (Push_error t data (storage u)) as Herr.
    destruct (topic_Push _ _ _) as [[err t'] st']. simpl in *.
    repeat split. intros ->. apply Herr. by left.
  - intros cr. unfold Confirm.
    destruct (topics u !! cf_TopicName cr) as [t|]; [|done].
    pose proof (confirm_error t (cf_LineName cr) (cf_ID cr) (storage u))
      as Herr.
    destruct (topic_confirm _ _ _ _) as [[err t'] st']. simpl in *.
    repeat split. intros ->. apply Herr. by left.
  - intros path tName lName Hparts. rewrite (Pop_two_parts _ _ _ _ Hparts).
    destruct (topics u !! tName) as [t|]; [|done].
    pose proof (pop_error t lName (storage u)) as Herr.
    destruct (topic_pop _ _ _) as [[[[id data] err] t'] st']. simpl in *.
    repeat split. intros ->. apply Herr. by left.
Qed.

(** (C4, as amended) [Pop] fails with [ErrKey] exactly when splitting the
    path on ["/"] does not give two parts, that is when the path does not
    hold exactly one ["/"]; it then returns before any lookup, the engine
    unchanged.  ["badpath"] is such a path.  Nothing is asked of the two
    parts: either may be empty. *)
Theorem Pop_key `{!TopicLayerErrors Store line lineStore} u path :
  ((Pop u path).1.2 = Some ErrKey ↔ length (Split path "/") ≠ 2%nat)
  ∧ (length (Split path "/") ≠ 2%nat ↔ occurrences "/" path ≠ 1%nat)
  ∧ (length (Split path "/") ≠ 2%nat →
     Pop u path = ((0, [], Some ErrKey), u))
  ∧ Pop u "badpath" = ((0, [], Some ErrKey), u).
Proof.
  split; [|split; [|split]].
  - split.
    + intros Herr Hlen. apply two_parts in Hlen as (tName & lName & Hparts).
      revert Herr. rewrite (Pop_two_parts _ _ _ _ Hparts).
      destruct (topics u !! tName) as [t|]; [|done].
      pose proof (pop_error t lName (storage u)) as Hlayer.
      destruct (topic_pop _ _ _) as [[[[id data] err] t'] st']. simpl in *.
      intros ->. apply Hlayer. by right.
    + intros Hlen. unfold Pop. by rewrite decide_True.
  - rewrite Split_length. lia.
  - intros Hlen. unfold Pop. by rewrite decide_True.
  - done.
Qed.

(** *** Shutdown *)

Lemma Close_quit_open u key t :
  topics u !! key = Some t →
  quit t = ChanOpen →
  Close_quit u key
  = Some (emit (CloseQuit key)
            (set_topics
               (<[key := Topic (name t) (lines t) (head t) (tail t)
                               ChanClosed (running t)]> (topics u)) u)).
Proof.
  intros Ht Hopen. unfold Close_quit, close_chan. by rewrite Ht, Hopen.
Qed.

Lemma Close_quits_open keys : ∀ u,
  NoDup keys →
  (∀ key, key ∈ keys → ∃ t, topics u !! key = Some t ∧ quit t = ChanOpen) →
  ∃ u', Close_quits keys u = Some u'
        ∧ trace u' = trace u ++ (CloseQuit <$> keys)
        ∧ storage u' = storage u
        ∧ dom (topics u') = dom (topics u).
Proof.
  induction keys as [|key keys IH]; intros u Hnodup Hopen.
  - exists u. by rewrite app_nil_r.
  - apply NoDup_cons in Hnodup as [Hfresh Hnodup].
    destruct (Hopen key) as (t & Ht & Hquit); [by left|].
    simpl. rewrite (Close_quit_open _ _ _ Ht Hquit).
    edestruct IH as (u' & -> & Htrace & Hstorage & Hdom); [done| |].
    + intros key' Hkey'. simpl.
      rewrite lookup_insert_ne by (by intros ->).
      apply Hopen. by right.
    + exists u'. split; [done|]. rewrite Htrace, Hstorage, Hdom. simpl.
      rewrite <-app_assoc. repeat split.
      rewrite dom_insert_L. apply elem_of_dom_2 in Ht.
      apply set_eq. intros k. rewrite elem_of_union, elem_of_singleton.
      naive_solver.
Qed.

Lemma exportTopics_topic_calls u key :
  is_Some (topics u !! key) →
  ∃ cs, export_calls key cs
        ∧ trace (exportTopics_topic u key) = trace u ++ cs
        ∧ dom (topics (exportTopics_topic u key)) = dom (topics u).
Proof.
  intros [t Ht]. unfold exportTopics_topic. rewrite Ht.
  assert (∀ t', dom (<[key := t']> (topics u)) = dom (topics u)) as Hdom.
  { intros t'. rewrite dom_insert_L. apply elem_of_dom_2 in Ht.
    apply set_eq. intros k. rewrite elem_of_union, elem_of_singleton.
    naive_solver. }
  destruct (topic_exportLines _ _) as [[[err|] t1] st1]; simpl.
  - eexists. split; [apply export_lines_failed|]. by rewrite Hdom.
  - destruct (topic_exportTopic _ _) as [[err t2] st2]. simpl.
    eexists. split; [apply (export_lines_done _ (is_nil err))|].
    rewrite <-app_assoc. split; [done|].
    rewrite dom_insert_L, Hdom. apply elem_of_dom_2 in Ht.
    apply set_eq. intros k. rewrite elem_of_union, elem_of_singleton.
    naive_solver.
Qed.

Lemma exportTopics_calls keys : ∀ u,
  (∀ key, key ∈ keys → key ∈ dom (topics u)) →
  ∃ css, Forall2 export_calls keys css
         ∧ trace (fold_left exportTopics_topic keys u)
           = trace u ++ concat css.
Proof.
  induction keys as [|key keys IH]; intros u Hdom.
  - exists []. split; [constructor|]. by rewrite app_nil_r.
  - destruct (exportTopics_topic_calls u key) as (cs & Hcs & Htrace & Hsame).
    { apply elem_of_dom, Hdom. by left. }
    destruct (IH (exportTopics_topic u key)) as (css & Hcss & Hrest).
    { intros key' Hkey'. rewrite Hsame. apply Hdom. by right. }
    exists (cs :: css). split; [by constructor|].
    simpl. by rewrite Hrest, Htrace, <-app_assoc.
Qed.

(** (C8, as amended) On an engine none of whose quit channels has been
    closed, [Close] returns, and the calls it makes are, in this order: one
    [close] of the quit channel of every registered topic; then, topic by
    topic, [exportLines], followed by [exportTopic] when [exportLines]
    returned nil, whatever [exportTopic] then returns; and last the
    [Close] of the store, which is what the engine is left holding.  No
    outcome of an export keeps a later topic from being exported or the
    store from being closed. *)
Theorem Close_sequence `{!MapRangeOk line} u :
  (∀ key t, topics u !! key = Some t → quit t = ChanOpen) →
  ∃ u' quits exports css st,
    Close u = Some u'
    ∧ quits ≡ₚ elements (dom (topics u))
    ∧ exports ≡ₚ elements (dom (topics u))
    ∧ Forall2 export_calls exports css
    ∧ trace u'
      = trace u ++ (CloseQuit <$> quits) ++ concat css ++ [StorageClose]
    ∧ storage u' = storage_Close st.
Proof.
  intros Hopen. unfold Close.
  pose proof (range_keys_perm RangeClose (topics u)) as Hquits.
  destruct (Close_quits_open (range_keys RangeClose (topics u)) u)
    as (u1 & -> & Htrace1 & Hstorage1 & Hdom1).
  { rewrite Hquits. apply NoDup_elements. }
  { intros key Hkey. rewrite Hquits in Hkey.
    apply elem_of_elements, elem_of_dom in Hkey as [t Ht]. eauto. }
  pose proof (range_keys_perm RangeExportTopics (topics u1)) as Hexports.
  rewrite Hdom1 in Hexports. simpl.
  destruct (exportTopics_calls (range_keys RangeExportTopics (topics u1)) u1)
    as (css & Hcss & Htrace2).
  { intros key Hkey. rewrite Hexports in Hkey.
    rewrite Hdom1. by apply elem_of_elements. }
  eexists _, (range_keys RangeClose (topics u)),
    (range_keys RangeExportTopics (topics u1)), css, _. split; [done|].
  split; [done|]. split; [done|]. split; [done|]. simpl.
  split; [|done]. by rewrite Htrace2, Htrace1, <-!app_assoc.
Qed.

(** *** Start-up recovery *)

Lemma read_record_None {A : Type} `{!Gob A} st key :
  read_record (A:=A) st key = None
  ↔ (∃ err, storage_Get st key = Err err)
    ∨ storage_Get st key = Ok []
    ∨ (∃ data err, storage_Get st key = Ok data
                   ∧ gob_Decode (A:=A) data = Err err).
Proof.
  unfold read_record. destruct (storage_Get st key) as [data|err].
  - case_decide as Hlen.
    + apply nil_length_inv in Hlen as ->. naive_solver.
    + destruct (gob_Decode data) as [a|err] eqn:Hdec; [|naive_solver].
      split; [done|]. intros [[? [=]]|[[= ->]|(? & ? & [= <-] & ?)]];
        [done|congruence].
  - naive_solver.
Qed.

Lemma read_record_Some {A : Type} `{!Gob A} st key data (a : A) :
  storage_Get st key = Ok data → data ≠ [] → gob_Decode data = Ok a →
  read_record st key = Some a.
Proof.
  intros Hget Hdata Hdec. unfold read_record. rewrite Hget.
  rewrite decide_False; [by rewrite Hdec|].
  by destruct data.
Qed.

Lemma loadTopic_line_record st t acc lineName :
  loadTopic_line st t acc lineName
  = match line_record st t lineName with
    | Some l => <[lineName := l]> acc
    | None => acc
    end.
Proof.
  unfold loadTopic_line, line_record, read_record.
  destruct (storage_Get _ _) as [data|]; [|done].
  case_decide; [done|].
  destruct (gob_Decode data) as [v|]; [|done].
  by destruct (topic_loadLine t lineName v).
Qed.

Lemma loaded_lines st t lineNames lineName : ∀ acc,
  fold_left (loadTopic_line st t) lineNames acc !! lineName
  = if decide (lineName ∈ lineNames)
    then match line_record st t lineName with
         | Some l => Some l
         | None => acc !! lineName
         end
    else acc !! lineName.
Proof.
  induction lineNames as [|n lineNames IH]; intros acc.
  - by rewrite decide_False by apply not_elem_of_nil.
  - simpl. rewrite IH, loadTopic_line_record.
    destruct (decide (n = lineName)) as [->|Hne].
    + rewrite (decide_True (P := lineName ∈ lineName :: lineNames))
        by (by left).
      destruct (line_record st t lineName) as [l|]; [|by case_decide].
      rewrite lookup_insert_eq. by case_decide.
    + assert (∀ m : gmap string line,
                match line_record st t n with
                | Some l => <[n:=l]> m
                | None => m
                end !! lineName = m !! lineName) as ->.
      { intros m. destruct (line_record st t n); [|done].
        by rewrite lookup_insert_ne. }
      destruct (decide (lineName ∈ lineNames)) as [Hin|Hout].
      * rewrite decide_True by (by right). done.
      * rewrite decide_False; [done|].
        rewrite elem_of_cons. naive_solver.
Qed.

Lemma loadQueue_topic_record u topicName :
  loadQueue_topic u topicName
  = match read_record (storage u) topicName with
    | Some v =>
        set_topics
          (<[topicName := loaded_topic (storage u) topicName v]> (topics u)) u
    | None => u
    end.
Proof.
  unfold loadQueue_topic, read_record.
  destruct (storage_Get _ _) as [data|]; [|done].
  case_decide; [done|].
  by destruct (gob_Decode data) as [v|].
Qed.

Lemma loaded_topics names topicName : ∀ u,
  topics (fold_left loadQueue_topic names u) !! topicName
  = if decide (topicName ∈ names)
    then match read_record (storage u) topicName with
         | Some v => Some (loaded_topic (storage u) topicName v)
         | None => topics u !! topicName
         end
    else topics u !! topicName.
Proof.
  induction names as [|n names IH]; intros u.
  - by rewrite decide_False by apply not_elem_of_nil.
  - simpl. rewrite IH, loadQueue_topic_record.
    assert (storage
              match read_record (storage u) n with
              | Some v =>
                  set_topics
                    (<[n := loaded_topic (storage u) n v]> (topics u)) u
              | None => u
              end = storage u) as ->.
    { by destruct (read_record (storage u) n). }
    destruct (decide (n = topicName)) as [->|Hne].
    + rewrite (decide_True (P := topicName ∈ topicName :: names))
        by (by left).
      destruct (read_record (storage u) topicName) as [v|];
        [|by case_decide].
      simpl. rewrite lookup_insert_eq. by case_decide.
    + assert (topics
                match read_record (storage u) n with
                | Some v =>
                    set_topics
                      (<[n := loaded_topic (storage u) n v]> (topics u)) u
                | None => u
                end !! topicName = topics u !! topicName) as ->.
      { destruct (read_record (storage u) n); [|done].
        simpl. by rewrite lookup_insert_ne. }
      destruct (decide (topicName ∈ names)) as [Hin|Hout].
      * rewrite decide_True by (by right). done.
      * rewrite decide_False; [done|].
        rewrite elem_of_cons. naive_solver.
Qed.

Lemma NewUnitedQueue_listing st data names :
  storage_Get st StorageKeyWord = Ok data →
  data ≠ [] →
  gob_Decode data = Ok {| Topics := names |} →
  NewUnitedQueue st
  = Ok (fold_left loadQueue_topic names
          {| topics := ∅; storage := st; trace := [] |}).
Proof.
  intros Hget Hdata Hdec. unfold NewUnitedQueue, loadQueue. simpl.
  rewrite Hget. rewrite decide_True; [by rewrite Hdec|].
  destruct data; simpl; [done|lia].
Qed.

(** (C3) When the engine record lists [names], recovery returns an engine
    and keeps exactly the listed topics whose own record can be read; a
    topic kept has the head and tail of its record and exactly those of
    its listed lines whose record can be read and loaded.  A record cannot
    be read when [Get] fails, when it is empty, or when gob rejects it, and
    in no other case; what happens to one name has no effect on another. *)
Theorem recovery_is_partial st data names :
  storage_Get st StorageKeyWord = Ok data →
  data ≠ [] →
  gob_Decode data = Ok {| Topics := names |} →
  ∃ u,
    NewUnitedQueue st = Ok u
    ∧ (∀ topicName,
         is_Some (topics u !! topicName)
         ↔ topicName ∈ names
           ∧ is_Some (read_record (A:=topicStore) st topicName))
    ∧ (∀ topicName t,
         topics u !! topicName = Some t →
         ∃ v, read_record st topicName = Some v
              ∧ name t = topicName ∧ head t = Head v ∧ tail t = Tail v
              ∧ ∀ lineName,
                  lines t !! lineName
                  = if decide (lineName ∈ Lines v)
                    then line_record st (bare_topic topicName v) lineName
                    else None)
    ∧ (∀ key,
         (read_record (A:=topicStore) st key = None
          ↔ (∃ err, storage_Get st key = Err err)
            ∨ storage_Get st key = Ok []
            ∨ (∃ data err, storage_Get st key = Ok data
                           ∧ gob_Decode (A:=topicStore) data = Err err))
         ∧ (read_record (A:=lineStore) st key = None
            ↔ (∃ err, storage_Get st key = Err err)
              ∨ storage_Get st key = Ok []
              ∨ (∃ data err, storage_Get st key = Ok data
                             ∧ gob_Decode (A:=lineStore) data = Err err))).
Proof.
  intros Hget Hdata Hdec. eexists. split.
  { by apply (NewUnitedQueue_listing st data names). }
  split; [|split].
  - intros topicName. rewrite loaded_topics. simpl.
    rewrite lookup_empty. case_decide as Hin.
    + destruct (read_record st topicName) as [v|].
      * split; [by eauto|]. by eauto.
      * split; [by intros [? [=]]|]. by intros [_ [? [=]]].
    + split; [by intros [? [=]]|]. naive_solver.
  - intros topicName t. rewrite loaded_topics. simpl.
    rewrite lookup_empty. case_decide as Hin; [|done].
    destruct (read_record st topicName) as [v|]; [|done].
    intros [= <-]. exists v. repeat split.
    intros lineName. simpl. rewrite loaded_lines, lookup_empty.
    case_decide; [|done]. by destruct (line_record _ _ _).
  - intros key. split; apply read_record_None.
Qed.

Lemma exportQueue_writes u q buffer :
  genQueueStore u = Ok q →
  gob_Encode q = Ok buffer →
  trace (exportQueue u).2 = trace u ++ [StorageSet StorageKeyWord buffer].
Proof.
  intros Hgen Henc. unfold exportQueue. rewrite Hgen, Henc.
  by destruct (storage_Set _ _ _).
Qed.

(** (C2) Take the bytes [exportQueue] writes for an engine and a store
    that returns them under the engine key and, under the name of every
    registered topic, the gob encoding of a topic record.  Recovery from
    that store returns an engine whose topic map has the same names, each
    mapped to a topic of that name with the head and tail of its record. *)
Theorem export_load_round_trip
    `{!MapRangeOk line}
    `{!GobRoundTrip unitedQueueStore} `{!GobRoundTrip topicStore}
    u st q buffer (record : string → topicStore) :
  genQueueStore u = Ok q →
  gob_Encode q = Ok buffer →
  storage_Get st StorageKeyWord = Ok buffer →
  (∀ topicName,
     is_Some (topics u !! topicName) →
     ∃ data, gob_Encode (record topicName) = Ok data
             ∧ storage_Get st topicName = Ok data) →
  trace (exportQueue u).2 = trace u ++ [StorageSet StorageKeyWord buffer]
  ∧ ∃ u',
      NewUnitedQueue st = Ok u'
      ∧ dom (topics u') = dom (topics u)
      ∧ ∀ topicName t,
          topics u' !! topicName = Some t →
          name t = topicName
          ∧ head t = Head (record topicName)
          ∧ tail t = Tail (record topicName).
Proof.
  intros Hgen Henc Hget Hrecords.
  split; [by apply (exportQueue_writes u q buffer)|].
  destruct (gob_round_trip q buffer Henc) as [Hdata Hdec].
  assert (∀ topicName,
            topicName ∈ Topics q ↔ is_Some (topics u !! topicName))
    as Hnames.
  { intros topicName. injection Hgen as <-. simpl.
    rewrite range_keys_perm, elem_of_elements. apply elem_of_dom. }
  assert (∀ topicName,
            is_Some (topics u !! topicName) →
            read_record st topicName = Some (record topicName)) as Hread.
  { intros topicName Hreg.
    destruct (Hrecords topicName Hreg) as (data & Hrec & Hstored).
    destruct (gob_round_trip _ _ Hrec) as [Hne Hback].
    by apply (read_record_Some st topicName data). }
  destruct q as [names]. simpl in Hnames.
  eexists. split; [by apply (NewUnitedQueue_listing st buffer names)|].
  split.
  - apply set_eq. intros topicName. rewrite !elem_of_dom, loaded_topics.
    simpl. rewrite lookup_empty. case_decide as Hin.
    + pose proof Hin as Hreg. apply Hnames in Hreg.
      rewrite (Hread _ Hreg). split; [done|by eauto].
    + split; [by intros [? [=]]|]. intros Hreg. by apply Hnames in Hreg.
  - intros topicName t. rewrite loaded_topics. simpl.
    rewrite lookup_empty. case_decide as Hin; [|done].
    apply Hnames in Hin. rewrite (Hread _ Hin). by intros [= <-].
Qed.
End EngineFacts.

(** ** The collaborators of the runs meet what the engine needs *)

Lemma get_nat_put_nat n rest :
  Wire.get_nat (Wire.put_nat n ++ rest) = Some (n, rest).
Proof. induction n as [|n IH]; [done|]. simpl. by rewrite IH. Qed.

Lemma put_nat_not_nil n rest : Wire.put_nat n ++ rest ≠ [].
Proof. by destruct n. Qed.

Lemma get_N_put_N n rest : Wire.get_N (Wire.put_N n ++ rest) = Some (n, rest).
Proof.
  unfold Wire.get_N, Wire.put_N. by rewrite get_nat_put_nat, N2Nat.id.
Qed.

Lemma get_string_put_string s rest :
  Wire.get_string (Wire.put_string s ++ rest) = Some (s, rest).
Proof.
  unfold Wire.get_string, Wire.put_string. simpl.
  rewrite <-app_assoc, get_nat_put_nat.
  rewrite decide_True by (rewrite length_app; lia).
  by rewrite take_app_length, drop_app_length, string_of_list_byte_of_string.
Qed.

Lemma get_items_put_strings l rest :
  Wire.get_items (length l) (concat (Wire.put_string <$> l) ++ rest)
  = Some (l, rest).
Proof.
  induction l as [|s l IH]; [done|].
  rewrite fmap_cons. cbn [length concat Wire.get_items].
  rewrite <-app_assoc, get_string_put_string. by rewrite IH.
Qed.

Lemma get_strings_put_strings l rest :
  Wire.get_strings (Wire.put_strings l ++ rest) = Some (l, rest).
Proof.
  unfold Wire.get_strings, Wire.put_strings.
  rewrite <-app_assoc, get_nat_put_nat. apply get_items_put_strings.
Qed.

#[global] Instance wire_queue_round_trip : GobRoundTrip unitedQueueStore.
Proof.
  intros [names] b [= <-]. split.
  - apply put_nat_not_nil.
  - simpl. unfold Wire.get_queueStore, Wire.put_queueStore. simpl.
    rewrite <-(app_nil_r (Wire.put_strings names)).
    by rewrite get_strings_put_strings.
Qed.

#[global] Instance wire_topic_round_trip : GobRoundTrip topicStore.
Proof.
  intros [h t names] b [= <-]. split.
  - apply put_nat_not_nil.
  - simpl. unfold Wire.get_topicStore, Wire.put_topicStore. simpl.
    rewrite <-(app_nil_r (Wire.put_strings names)), !get_N_put_N.
    by rewrite get_strings_put_strings.
Qed.

#[global] Instance sim_MapRangeOk : MapRangeOk Sim.line.
Proof.
  intros site m. unfold range_keys, sim_MapRange, Sim.keys.
  destruct site; [done|done|apply reverse_Permutation].
Qed.

Lemma mem_Get_error st key err :
  Mem.Get st key = Err err → err = Mem.ErrRead ∨ err = Mem.ErrNotFound.
Proof.
  unfold Mem.Get. case_decide; [naive_solver|].
  destruct (Mem.cells st !! key); naive_solver.
Qed.

Lemma mem_Set_error st key data :
  (Mem.Set_ st key data).1 = None
  ∨ (Mem.Set_ st key data).1 = Some Mem.ErrDenied.
Proof. unfold Mem.Set_. destruct (Mem.denies st); [by right|by left]. Qed.

#[global] Instance sim_TopicLayerErrors :
  TopicLayerErrors Mem.store Sim.line Sim.lineStore.
Proof.
  split; simpl.
  - intros t lineName r st. unfold Sim.CreateLine.
    destruct (lines t !! lineName); [by intros [[=]|[=]]|].
    unfold Sim.exportTopic.
    match goal with |- context [Mem.Set_ ?s ?k ?d] =>
      destruct (mem_Set_error s k d) as [Hset|Hset];
      destruct (Mem.Set_ s k d) as [err st'] end;
      simpl in *; subst err; by intros [[=]|[=]].
  - intros t data st. unfold Sim.Push.
    match goal with |- context [Mem.Set_ ?s ?k ?d] =>
      destruct (mem_Set_error s k d) as [Hset|Hset];
      destruct (Mem.Set_ s k d) as [err st'] end;
      simpl in *; subst err; by intros [[=]|[=]].
  - intros t lineName st. unfold Sim.pop.
    destruct (lines t !! lineName) as [l|]; [|by intros [[=]|[=]]].
    case_decide; [|by intros [[=]|[=]]].
    destruct (Mem.Get _ _) as [data|err] eqn:Hget; [by intros [[=]|[=]]|].
    apply mem_Get_error in Hget as [->| ->]; by intros [[=]|[=]].
  - intros t lineName id st. unfold Sim.confirm.
    destruct (lines t !! lineName); by intros [[=]|[=]].
Qed.

(** ** Runs *)

Lemma pushed_topics :
  topics Run.pushed
  = {[ "t" := Topic "t" {[ "l" := {| Sim.cursor := 0; Sim.recycle := 0 |} ]}
                    0 1 ChanOpen true ]}.
Proof. by vm_compute. Qed.

Lemma pushed_topic_t topicName :
  is_Some (topics Run.pushed !! topicName) → topicName = "t".
Proof.
  rewrite pushed_topics. intros [t Ht].
  by apply lookup_singleton_Some in Ht as [<- _].
Qed.

Lemma createTopic_write_failure_run :
  createTopic Run.denied "t"
  = (Some Mem.ErrDenied,
     emit (StorageSet StorageKeyWord (Wire.put_queueStore Run.queue_t))
          (set_storage (Mem.deny (Mem.new [])) Run.denied))
  ∧ topics (createTopic Run.denied "t").2 = topics Run.denied
  ∧ ("t" ≠ "" →
     Create Run.denied Run.topic_t
     = (Some Mem.ErrDenied,
        emit (StorageSet StorageKeyWord (Wire.put_queueStore Run.queue_t))
             (set_storage (Mem.deny (Mem.new [])) Run.denied))).
Proof.
  apply (createTopic_write_failure Run.denied "t" 0%Z Run.queue_t
           (Wire.put_queueStore Run.queue_t) Mem.ErrDenied
           (Mem.deny (Mem.new []))); by vm_compute.
Defined.

Lemma export_load_round_trip_run :
  trace (exportQueue Run.pushed).2
  = trace Run.pushed
    ++ [StorageSet StorageKeyWord (Wire.put_queueStore Run.queue_t)]
  ∧ ∃ u',
      NewUnitedQueue (storage Run.exported) = Ok u'
      ∧ dom (topics u') = dom (topics Run.pushed)
      ∧ ∀ topicName t,
          topics u' !! topicName = Some t →
          name t = topicName
          ∧ head t = Head Run.record_t ∧ tail t = Tail Run.record_t.
Proof.
  apply (export_load_round_trip Run.pushed (storage Run.exported)
           Run.queue_t (Wire.put_queueStore Run.queue_t)
           (λ _, Run.record_t)); [by vm_compute..|].
  intros topicName Hreg. apply pushed_topic_t in Hreg as ->.
  exists (Wire.put_topicStore Run.record_t). split; by vm_compute.
Defined.

Lemma recovery_is_partial_run :
  ∃ u : Sim.engine,
    NewUnitedQueue Run.damaged = Ok u
    ∧ (∀ topicName,
         is_Some (topics u !! topicName)
         ↔ topicName ∈ ["a"; "b"; "c"]
           ∧ is_Some (read_record (A:=topicStore) Run.damaged topicName))
    ∧ (∀ topicName t,
         topics u !! topicName = Some t →
         ∃ v, read_record Run.damaged topicName = Some v
              ∧ name t = topicName ∧ head t = Head v ∧ tail t = Tail v
              ∧ ∀ lineName,
                  lines t !! lineName
                  = if decide (lineName ∈ Lines v)
                    then line_record Run.damaged (bare_topic topicName v)
                                     lineName
                    else None).
Proof.
  destruct (recovery_is_partial (lineStore:=Sim.lineStore) Run.damaged
              (Wire.put_queueStore Run.listing) ["a"; "b"; "c"])
    as (u & Hnew & Htopics & Hlines & _); [by vm_compute..|].
  by exists u.
Defined.

(** What the recovery of [Run.damaged] keeps: topic ["a"] with line ["l"]. *)
Lemma recovery_run :
  ∃ u : Sim.engine,
    NewUnitedQueue Run.damaged = Ok u
    ∧ topics u
      = {[ "a" := Topic "a" {[ "l" := {| Sim.cursor := 1; Sim.recycle := 0 |} ]}
                        0 2 ChanOpen true ]}.
Proof. eexists. split; by vm_compute. Qed.

Lemma Pop_key_run :
  ((Pop Run.pushed "t/l").1.2 = Some ErrKey
   ↔ length (Split "t/l" "/") ≠ 2%nat)
  ∧ (length (Split "t/l" "/") ≠ 2%nat ↔ occurrences "/" "t/l" ≠ 1%nat)
  ∧ (length (Split "t/l" "/") ≠ 2%nat →
     Pop Run.pushed "t/l" = ((0, [], Some ErrKey), Run.pushed))
  ∧ Pop Run.pushed "badpath" = ((0, [], Some ErrKey), Run.pushed).
Proof. exact (Pop_key Run.pushed "t/l"). Defined.

(** A path with an empty second part is not one of two non-empty parts, yet
    [Pop] does not fail with [ErrKey]: it looks the topic up, and reports
    that the topic, or the line named by the empty part, does not exist.  The
    same goes for an empty first part. *)
Lemma Pop_empty_part :
  ¬ (∃ tName lName,
       Split "t/" "/" = [tName; lName] ∧ tName ≠ "" ∧ lName ≠ "")
  ∧ Pop Run.fresh "t/" = ((0, [], Some ErrTopicNotExisted), Run.fresh)
  ∧ (Pop Run.pushed "t/").1 = (0, [], Some ErrLineNotExisted)
  ∧ trace (Pop Run.pushed "t/").2 = trace Run.pushed ++ [TopicPop "t" ""]
  ∧ Pop Run.pushed "/l" = ((0, [], Some ErrTopicNotExisted), Run.pushed).
Proof.
  split; [|by vm_compute].
  intros (tName & lName & Hparts & _ & Hline).
  by injection Hparts as <- <-.
Qed.

Lemma Create_one_branch_run :
  dom (topics (Create Run.with_topic Run.line_l).2)
  = dom (topics Run.with_topic)
  ∧ Create Run.with_topic Run.topic_t
    = createTopic Run.with_topic "t"
  ∧ Create Run.with_topic Run.nothing = (Some ErrKey, Run.with_topic).
Proof.
  split; [|split].
  - by apply (Create_one_branch Run.with_topic Run.line_l).
  - by apply (Create_one_branch Run.with_topic Run.topic_t).
  - by apply (Create_one_branch Run.with_topic Run.nothing).
Defined.

Lemma Create_topic_run :
  (is_Some (topics Run.fresh !! "t") →
   Create Run.fresh Run.topic_t = (Some ErrTopicExisted, Run.fresh))
  ∧ (topics Run.fresh !! "t" = None →
     ∀ q buffer st,
       genQueueStore
         (set_topics
            (<["t" := start (Topic "t" ∅ 0 0 ChanOpen false)]>
               (topics Run.fresh)) Run.fresh)
       = Ok q →
       gob_Encode q = Ok buffer →
       storage_Set (storage Run.fresh) StorageKeyWord buffer = (None, st) →
       Create Run.fresh Run.topic_t
       = (None,
          {| topics := <["t" := Topic "t" ∅ 0 0 ChanOpen true]>
                         (topics Run.fresh);
             storage := st;
             trace := trace Run.fresh ++ [StorageSet StorageKeyWord buffer] |})
       ∧ Topics q ≡ₚ "t" :: elements (dom (topics Run.fresh))).
Proof. apply (Create_topic Run.fresh "t" 0%Z). by vm_compute. Defined.

(** On a store that refuses the write, [Create] of an unregistered topic
    registers nothing. *)
Lemma Create_topic_denied :
  topics Run.denied !! "t" = None
  ∧ (Create Run.denied Run.topic_t).1 = Some Mem.ErrDenied
  ∧ ¬ (∃ t, topics (Create Run.denied Run.topic_t).2 !! "t" = Some t
            ∧ head t = 0 ∧ tail t = 0).
Proof.
  split; [by vm_compute|]. split; [by vm_compute|].
  intros (t & Ht & _). by vm_compute in Ht.
Qed.

(** A topic recovered under the empty name is registered, and [Create] with
    that name and no line name fails with [ErrKey]. *)
Lemma Create_empty_name_registered :
  ∃ u : Sim.engine,
    NewUnitedQueue Run.nameless = Ok u
    ∧ is_Some (topics u !! "")
    ∧ Create u Run.nothing = (Some ErrKey, u).
Proof. eexists. split; [by vm_compute|]. split; [by eexists|done]. Qed.

Lemma topic_lookup_run :
  (∀ name data,
     match topics Run.pushed !! name with
     | None => Push Run.pushed name data = (Some ErrTopicNotExisted, Run.pushed)
     | Some t =>
         (Push Run.pushed name data).1
         = (topic_Push t data (storage Run.pushed)).1.1
         ∧ trace (Push Run.pushed name data).2
           = trace Run.pushed ++ [TopicPush name data]
         ∧ (Push Run.pushed name data).1 ≠ Some ErrTopicNotExisted
     end)
  ∧ Confirm Run.fresh Run.confirm_0 = (Some ErrTopicNotExisted, Run.fresh)
  ∧ (Confirm Run.pushed Run.confirm_0).1 ≠ Some ErrTopicNotExisted
  ∧ Pop Run.fresh "t/l" = ((0, [], Some ErrTopicNotExisted), Run.fresh)
  ∧ (Pop Run.pushed "t/l").1.2 ≠ Some ErrTopicNotExisted.
Proof.
  destruct (topic_lookup Run.pushed) as (Hpush & Hconfirm & Hpop).
  destruct (topic_lookup Run.fresh) as (_ & Hconfirm0 & Hpop0).
  split; [exact Hpush|].
  split; [exact (Hconfirm0 Run.confirm_0)|].
  split; [by destruct (Hconfirm Run.confirm_0) as (_ & _ & Herr)|].
  split; [exact (Hpop0 "t/l" "t" "l" eq_refl)|].
  by destruct (Hpop "t/l" "t" "l" eq_refl) as (_ & _ & Herr).
Defined.

Lemma Close_sequence_run :
  ∃ u' quits exports css st,
    Close Run.pushed = Some u'
    ∧ quits ≡ₚ elements (dom (topics Run.pushed))
    ∧ exports ≡ₚ elements (dom (topics Run.pushed))
    ∧ Forall2 export_calls exports css
    ∧ trace u'
      = trace Run.pushed ++ (CloseQuit <$> quits) ++ concat css
        ++ [StorageClose]
    ∧ storage u' = storage_Close st.
Proof.
  apply (Close_sequence Run.pushed). intros key t. rewrite pushed_topics.
  intros [_ <-]%lookup_singleton_Some. done.
Defined.

(** The calls of one shutdown, and a second [Close] of the engine it
    leaves: the first [close] of a quit channel panics, and the store is
    not reached. *)
Lemma Close_twice :
  Close Run.pushed = Some Run.shut
  ∧ trace Run.shut
    = trace Run.pushed
      ++ [CloseQuit "t"; TopicExportLines "t" true; TopicExportTopic "t" true;
          StorageClose]
  ∧ Close Run.shut = None.
Proof. by vm_compute. Qed.

Lemma loadQueue_always_nil_run :
  NewUnitedQueue Run.unreadable
  = Ok ({| topics := ∅; storage := Run.unreadable; trace := [] |} : Sim.engine).
Proof.
  apply loadQueue_always_nil. left. exists Mem.ErrRead. by vm_compute.
Defined.

Lemma Create_line_without_topic_run :
  Create Run.pushed Run.line_only = (Some ErrTopicNotExisted, Run.pushed)
  ∧ (Create Run.pushed Run.line_only).1 ≠ Some ErrKey.
Proof.
  apply (Create_line_without_topic Run.pushed Run.line_only); by vm_compute.
Defined.

(** * Further properties of the engine *)

Section MoreEngineFacts.
Context {Store line lineStore : Type}.
Context `{!Storage Store} `{!TopicLayer Store line lineStore}.
Context `{!MapRange line}.
Context `{!Gob unitedQueueStore} `{!Gob topicStore} `{!Gob lineStore}.

Implicit Types (u : UnitedQueue Store line) (t : topic line) (st : Store).

Lemma engine_eq u1 u2 :
  topics u1 = topics u2 → storage u1 = storage u2 → trace u1 = trace u2 →
  u1 = u2.
Proof. destruct u1, u2. simpl. by intros -> -> ->. Qed.

Lemma dom_insert_registered (m : gmap string (topic line)) key t t' :
  m !! key = Some t → dom (<[key := t']> m) = dom m.
Proof.
  intros Hkey. rewrite dom_insert_L. apply elem_of_dom_2 in Hkey.
  apply set_eq. intros k. rewrite elem_of_union, elem_of_singleton.
  naive_solver.
Qed.

(** *** Creation *)

Lemma createTopic_nil u name u' :
  createTopic u name = (None, u') →
  topics u !! name = None
  ∧ topics u' = <[name := Topic name ∅ 0 0 ChanOpen true]> (topics u).
Proof.
  unfold createTopic. destruct (topics u !! name) eqn:Hname; [done|]. simpl.
  pose proof (exportQueue_topics
    (set_topics (<[name := start (Topic name ∅ 0 0 ChanOpen false)]> (topics u))
                u)) as Htopics.
  destruct (exportQueue _) as [[err|] u2]; [done|].
  intros [= <-]. by split.
Qed.

Lemma createTopic_err u name err u' :
  createTopic u name = (Some err, u') → topics u' = topics u.
Proof.
  unfold createTopic. destruct (topics u !! name) eqn:Hname.
  { by intros [= _ <-]. }
  simpl.
  pose proof (exportQueue_topics
    (set_topics (<[name := start (Topic name ∅ 0 0 ChanOpen false)]> (topics u))
                u)) as Htopics.
  destruct (exportQueue _) as [[err'|] u2]; [|done].
  intros [= _ <-]. simpl in *. rewrite Htopics. by apply delete_insert_id.
Qed.

(** (X1) [createTopic] is all or nothing on the topic map.  When it returns
    an error, whichever it is, the map is the one before the call; when it
    returns nil, the name was free and the map is the old one with the name
    bound to a topic without lines, [head = tail = 0], an open quit channel
    and a started loop. *)
Theorem createTopic_all_or_nothing u name :
  match (createTopic u name).1 with
  | Some _ => topics (createTopic u name).2 = topics u
  | None =>
      topics u !! name = None
      ∧ topics (createTopic u name).2
        = <[name := Topic name ∅ 0 0 ChanOpen true]> (topics u)
  end.
Proof.
  destruct (createTopic u name) as [[err|] u'] eqn:Hcreate; simpl.
  - by apply (createTopic_err u name err).
  - by apply createTopic_nil.
Qed.

(** (X2) When gob cannot encode the engine record, [createTopic] returns
    gob's error without calling the store, and the engine is exactly as it
    was before the call. *)
Theorem createTopic_encode_failure u name q err :
  topics u !! name = None →
  genQueueStore
    (set_topics (<[name := start (Topic name ∅ 0 0 ChanOpen false)]> (topics u))
                u)
  = Ok q →
  gob_Encode q = Err err →
  createTopic u name = (Some err, u).
Proof.
  intros Hname Hgen Henc. unfold createTopic. rewrite Hname. simpl.
  unfold exportQueue. rewrite Hgen, Henc. f_equal.
  apply engine_eq; [|done..]. simpl. by apply delete_insert_id.
Qed.


(** (X4) Once [Create] has created a topic, the same request made again
    fails with [ErrTopicExisted] and changes nothing. *)
Theorem Create_topic_twice u cr u' :
  cr_LineName cr = "" →
  Create u cr = (None, u') →
  Create u' cr = (Some ErrTopicExisted, u').
Proof.
  intros Hline. unfold Create.
  assert (¬ cr_LineName cr ≠ "") as Hnot by (by intros Hne; apply Hne).
  rewrite !(decide_False (P := cr_LineName cr ≠ "")) by done.
  destruct (decide (cr_TopicName cr ≠ "")) as [Htopic|Htopic]; [|done].
  intros Hcreate. apply createTopic_nil in Hcreate as [_ Htopics].
  apply (createTopic_registered u' _ (Topic (cr_TopicName cr) ∅ 0 0 ChanOpen true)).
  by rewrite Htopics, lookup_insert_eq.
Qed.

(** (X5) [genQueueStore] never fails, and the record it builds lists every
    registered topic name, each once and no other: as many names as the map
    has topics. *)
Theorem genQueueStore_names `{!MapRangeOk line} u :
  ∃ q, genQueueStore u = Ok q
       ∧ NoDup (Topics q)
       ∧ (∀ topicName,
            topicName ∈ Topics q ↔ is_Some (topics u !! topicName))
       ∧ length (Topics q) = size (topics u).
Proof.
  eexists. split; [done|]. simpl.
  pose proof (range_keys_perm RangeGenQueueStore (topics u)) as Hperm.
  split; [|split].
  - rewrite Hperm. apply NoDup_elements.
  - intros topicName. rewrite Hperm, elem_of_elements. apply elem_of_dom.
  - rewrite Hperm. by rewrite <-size_dom.
Qed.

(** *** Paths *)

Lemma Split_not_nil s sep : Split s sep ≠ [].
Proof.
  intros Hnil. pose proof (Split_length s sep) as Hlen.
  by rewrite Hnil in Hlen.
Qed.

Lemma Split_no_sep s sep : occurrences sep s = 0%nat → Split s sep = [s].
Proof.
  induction s as [|c rest IH]; [done|]. simpl.
  case_decide; [done|]. intros Hrest. by rewrite IH.
Qed.

Lemma Split_append a b sep :
  occurrences sep a = 0%nat →
  Split (a +:+ String sep b) sep = a :: Split b sep.
Proof.
  induction a as [|c rest IH]; simpl.
  - intros _. by rewrite decide_True.
  - case_decide; [done|]. intros Hrest. by rewrite IH.
Qed.

(** (X6) [Split] loses nothing and leaves no separator behind: joining the
    pieces with the separator gives the string back, and no piece holds the
    separator. *)
Theorem Split_Join s sep :
  Join (Split s sep) sep = s
  ∧ Forall (λ piece, occurrences sep piece = 0%nat) (Split s sep).
Proof.
  induction s as [|c rest [IHjoin IHfree]]; [by repeat constructor|].
  pose proof (Split_not_nil rest sep) as Hnil. simpl.
  destruct (Split rest sep) as [|piece pieces] eqn:Hrest; [done|].
  case_decide as Hc.
  - subst c. split; [|by constructor].
    change (String sep (Join (piece :: pieces) sep) = String sep rest).
    by rewrite IHjoin.
  - apply Forall_cons in IHfree as [Hpiece Hpieces]. split.
    + destruct pieces as [|piece' pieces]; simpl in *; by rewrite <-IHjoin.
    + constructor; [|done]. simpl. by rewrite decide_False.
Qed.

(** (X7) A path made of a topic name, one ["/"] and a line name, neither
    name holding a ["/"], is read back by [Pop] as those two names: the topic
    is looked up under the first and its [pop] is called with the second. *)
Theorem Pop_topic_line u tName lName :
  occurrences "/" tName = 0%nat →
  occurrences "/" lName = 0%nat →
  Pop u (tName +:+ "/" +:+ lName)
  = match topics u !! tName with
    | None => ((0, [], Some ErrTopicNotExisted), u)
    | Some t =>
        run_topic (TopicPop tName lName) tName
                  (topic_pop t lName (storage u)) u
    end.
Proof.
  intros Htopic Hline. apply Pop_two_parts.
  change ("/" +:+ lName) with (String "/" lName).
  by rewrite Split_append, Split_no_sep.
Qed.

(** *** What a call leaves alone *)

Lemma run_topic_frame {A : Type} c key (r : A * topic line * Store) u t :
  topics u !! key = Some t →
  dom (topics (run_topic c key r u).2) = dom (topics u)
  ∧ ∀ other, other ≠ key →
      topics (run_topic c key r u).2 !! other = topics u !! other.
Proof.
  intros Hkey. destruct r as [[a t'] st']. simpl. split.
  - by apply (dom_insert_registered _ _ t).
  - intros other Hother. by rewrite lookup_insert_ne.
Qed.

(** (X8) [Push], [Confirm] and [Pop] neither register nor remove a topic,
    and touch no topic but the one they name: every other name is bound to
    what it was bound to before. *)
Theorem delivery_keeps_topics u :
  (∀ name data,
     dom (topics (Push u name data).2) = dom (topics u)
     ∧ ∀ other, other ≠ name →
         topics (Push u name data).2 !! other = topics u !! other)
  ∧ (∀ cr,
     dom (topics (Confirm u cr).2) = dom (topics u)
     ∧ ∀ other, other ≠ cf_TopicName cr →
         topics (Confirm u cr).2 !! other = topics u !! other)
  ∧ (∀ path,
     dom (topics (Pop u path).2) = dom (topics u)
     ∧ ∀ other, other ≠ nth 0 (Split path "/") "" →
         topics (Pop u path).2 !! other = topics u !! other).
Proof.
  split; [|split].
  - intros name data. unfold Push.
    destruct (topics u !! name) as [t|] eqn:Hname; [|done].
    by apply (run_topic_frame _ _ _ _ t).
  - intros cr. unfold Confirm.
    destruct (topics u !! cf_TopicName cr) as [t|] eqn:Hname; [|done].
    by apply (run_topic_frame _ _ _ _ t).
  - intros path. unfold Pop. case_decide; [done|].
    destruct (topics u !! nth 0 (Split path "/") "") as [t|] eqn:Hname;
      [|done].
    by apply (run_topic_frame _ _ _ _ t).
Qed.

(** (X9) [Create] never removes a topic and never touches a topic other
    than the one the request names: whatever it returns, every registered
    name stays registered and every other name is bound to what it was bound
    to before. *)
Theorem Create_keeps_topics u cr :
  dom (topics u) ⊆ dom (topics (Create u cr).2)
  ∧ ∀ other, other ≠ cr_TopicName cr →
      topics (Create u cr).2 !! other = topics u !! other.
Proof.
  unfold Create. case_decide.
  - destruct (topics u !! cr_TopicName cr) as [t|] eqn:Hname; [|done].
    destruct (run_topic_frame
                (TopicCreateLine (cr_TopicName cr) (cr_LineName cr)
                                 (cr_Recycle cr))
                (cr_TopicName cr)
                (topic_CreateLine t (cr_LineName cr) (cr_Recycle cr)
                                  (storage u)) u t Hname) as [Hdom Hother].
    split; [by rewrite Hdom|done].
  - case_decide; [|done].
    destruct (createTopic u (cr_TopicName cr)) as [[err|] u'] eqn:Hcreate;
      simpl.
    + apply createTopic_err in Hcreate. by rewrite Hcreate.
    + apply createTopic_nil in Hcreate as [_ ->]. split.
      * rewrite dom_insert_L. apply union_subseteq_r.
      * intros other Hother. by rewrite lookup_insert_ne.
Qed.

(** *** Start-up recovery *)

Lemma started_insert (m : gmap string (topic line)) key t :
  started m →
  name t = key → quit t = ChanOpen → running t = true →
  started (<[key := t]> m).
Proof.
  intros Hm Hname Hquit Hrun key' t'.
  destruct (decide (key = key')) as [<-|Hne].
  - rewrite lookup_insert_eq. by intros [= <-].
  - rewrite lookup_insert_ne by done. apply Hm.
Qed.

Lemma loadQueue_topic_started u topicName :
  started (topics u) → started (topics (loadQueue_topic u topicName)).
Proof.
  intros Hu. rewrite loadQueue_topic_record.
  destruct (read_record (storage u) topicName) as [v|]; [|done].
  simpl. by apply started_insert.
Qed.

Lemma fold_loadQueue_topic_started names : ∀ u,
  started (topics u) →
  started (topics (fold_left loadQueue_topic names u)).
Proof.
  induction names as [|n names IH]; intros u Hu; [done|].
  simpl. by apply IH, loadQueue_topic_started.
Qed.

Lemma loadQueue_started u :
  started (topics u) →
  (loadQueue u).1 = None
  ∧ started (topics (loadQueue u).2)
  ∧ storage (loadQueue u).2 = storage u
  ∧ trace (loadQueue u).2 = trace u.
Proof.
  intros Hu. unfold loadQueue.
  destruct (storage_Get _ _) as [data|]; [|done].
  case_decide; [|done].
  destruct (gob_Decode data) as [v|]; [|done]. simpl.
  split; [done|]. split; [by apply fold_loadQueue_topic_started|].
  apply fold_loadQueue_topic_storage.
Qed.

Lemma started_empty : started (∅ : gmap string (topic line)).
Proof. intros key t. by rewrite lookup_empty. Qed.

(** (X10) Whatever the store holds, the engine [NewUnitedQueue] returns has
    made no call that writes, holds the store it was given, and every topic
    it has loaded is registered under its own name, has an open quit channel
    and has had its loop started. *)
Theorem NewUnitedQueue_started st :
  match NewUnitedQueue st with
  | Ok u => storage u = st ∧ trace u = [] ∧ started (topics u)
  | Err _ => False
  end.
Proof.
  unfold NewUnitedQueue.
  destruct (loadQueue_started {| topics := ∅; storage := st; trace := [] |}
              started_empty) as (Hnil & Hstarted & Hstorage & Htrace).
  destruct (loadQueue _) as [err u]. simpl in *. by subst err.
Qed.

(** (X11) The engine record is read as a set: [loadQueue] gives the same
    engine for any listing with the same names, in whatever order and
    however often each is listed. *)
Theorem loadQueue_listing_as_set u data names names' :
  storage_Get (storage u) StorageKeyWord = Ok data →
  data ≠ [] →
  gob_Decode data = Ok {| Topics := names |} →
  (∀ topicName, topicName ∈ names ↔ topicName ∈ names') →
  loadQueue u = (None, fold_left loadQueue_topic names' u).
Proof.
  intros Hget Hdata Hdec Hsame. unfold loadQueue. rewrite Hget.
  rewrite decide_True by (destruct data; simpl; [done|lia]).
  rewrite Hdec. simpl. f_equal.
  destruct (fold_loadQueue_topic_storage names u) as [Hst Htr].
  destruct (fold_loadQueue_topic_storage names' u) as [Hst' Htr'].
  apply engine_eq; [|congruence..].
  apply map_eq. intros topicName. rewrite !loaded_topics.
  destruct (decide (topicName ∈ names)) as [Hin|Hout].
  - by rewrite decide_True by (by apply Hsame).
  - by rewrite decide_False by (by rewrite <-Hsame).
Qed.

(** (X12) So is the list of lines in a topic record: [loadTopic] returns
    the same topic for two records with the same head and tail and the same
    line names, in whatever order and however often each is listed. *)
Theorem loadTopic_lines_as_set u topicName v v' :
  Head v = Head v' →
  Tail v = Tail v' →
  (∀ lineName, lineName ∈ Lines v ↔ lineName ∈ Lines v') →
  loadTopic u topicName v = loadTopic u topicName v'.
Proof.
  intros Hhead Htail Hsame. unfold loadTopic. simpl.
  rewrite <-Hhead, <-Htail. do 3 f_equal.
  apply map_eq. intros lineName. rewrite !loaded_lines.
  destruct (decide (lineName ∈ Lines v)) as [Hin|Hout].
  - by rewrite decide_True by (by apply Hsame).
  - by rewrite decide_False by (by rewrite <-Hsame).
Qed.

(** *** Shutdown *)

Lemma Close_quit_dom u key u' :
  Close_quit u key = Some u' →
  dom (topics u') = dom (topics u)
  ∧ ∀ other, other ≠ key → topics u' !! other = topics u !! other.
Proof.
  unfold Close_quit, close_chan.
  destruct (topics u !! key) as [t|] eqn:Hkey; [|by intros [= <-]].
  destruct (quit t); [|done]. intros [= <-]. simpl. split.
  - by apply (dom_insert_registered _ _ t).
  - intros other Hother. by rewrite lookup_insert_ne.
Qed.

Lemma Close_quits_dom keys : ∀ u u',
  Close_quits keys u = Some u' → dom (topics u') = dom (topics u).
Proof.
  induction keys as [|key keys IH]; intros u u'; simpl.
  - by intros [= <-].
  - destruct (Close_quit u key) as [u1|] eqn:Hquit; [|done].
    intros Hrest. apply IH in Hrest. apply Close_quit_dom in Hquit as [<- _].
    done.
Qed.

Lemma Close_quits_panics keys : ∀ u,
  NoDup keys →
  Close_quits keys u = None
  ↔ ∃ key t, key ∈ keys ∧ topics u !! key = Some t ∧ quit t = ChanClosed.
Proof.
  induction keys as [|key keys IH]; intros u Hnodup; simpl.
  - split; [done|]. intros (key & t & Hin & _). by apply elem_of_nil in Hin.
  - apply NoDup_cons in Hnodup as [Hfresh Hnodup].
    destruct (Close_quit u key) as [u1|] eqn:Hquit.
    + rewrite (IH u1 Hnodup).
      pose proof Hquit as Hframe. apply Close_quit_dom in Hframe as [_ Hframe].
      split.
      * intros (key' & t & Hin & Hkey' & Hclosed). exists key', t.
        split; [by right|]. split; [|done].
        rewrite <-Hframe; [done|]. by intros ->.
      * intros (key' & t & Hin & Hkey' & Hclosed).
        apply elem_of_cons in Hin as [->|Hin].
        -- revert Hquit. unfold Close_quit, close_chan.
           by rewrite Hkey', Hclosed.
        -- exists key', t. split; [done|]. split; [|done].
           rewrite Hframe; [done|]. by intros ->.
    + split; [|done]. intros _. revert Hquit. unfold Close_quit, close_chan.
      destruct (topics u !! key) as [t|] eqn:Hkey; [|done].
      destruct (quit t) eqn:Hclosed; [done|]. intros _.
      exists key, t. split; [by left|done].
Qed.

Lemma exportTopics_topic_dom u key :
  dom (topics (exportTopics_topic u key)) = dom (topics u).
Proof.
  unfold exportTopics_topic.
  destruct (topics u !! key) as [t|] eqn:Hkey; [|done].
  destruct (topic_exportLines _ _) as [[[err|] t1] st1]; simpl.
  - by apply (dom_insert_registered _ _ t).
  - destruct (topic_exportTopic _ _) as [[err t2] st2]. simpl.
    rewrite dom_insert_L, (dom_insert_registered _ _ t) by done.
    apply elem_of_dom_2 in Hkey. apply set_eq. intros k.
    rewrite elem_of_union, elem_of_singleton. naive_solver.
Qed.

Lemma fold_exportTopics_topic_dom keys : ∀ u,
  dom (topics (fold_left exportTopics_topic keys u)) = dom (topics u).
Proof.
  induction keys as [|key keys IH]; intros u; [done|].
  simpl. by rewrite IH, exportTopics_topic_dom.
Qed.

Lemma Close_None u :
  Close u = None
  ↔ Close_quits (range_keys RangeClose (topics u)) u = None.
Proof. unfold Close. by destruct (Close_quits _ _) as [u1|]. Qed.

(** (X13) [Close] panics exactly when some registered topic has a quit
    channel that is already closed; otherwise it returns. *)
Theorem Close_panics_iff `{!MapRangeOk line} u :
  Close u = None
  ↔ ∃ key t, topics u !! key = Some t ∧ quit t = ChanClosed.
Proof.
  pose proof (range_keys_perm RangeClose (topics u)) as Hperm.
  assert (NoDup (range_keys RangeClose (topics u))) as Hnodup.
  { rewrite Hperm. apply NoDup_elements. }
  rewrite Close_None, (Close_quits_panics _ u Hnodup). split.
  - intros (key & t & _ & Hkey & Hclosed). by eauto.
  - intros (key & t & Hkey & Hclosed). exists key, t. split; [|done].
    rewrite Hperm. by apply elem_of_elements, (elem_of_dom_2 _ _ t).
Qed.

(** (X14) A [Close] that returns has neither registered nor removed a
    topic, and the store of the engine it leaves is one that [Close] of the
    store adapter returned. *)
Theorem Close_keeps_names u u' :
  Close u = Some u' →
  dom (topics u') = dom (topics u)
  ∧ ∃ st, storage u' = storage_Close st.
Proof.
  unfold Close.
  destruct (Close_quits _ _) as [u1|] eqn:Hquits; [|done].
  simpl. intros [= <-]. simpl. apply Close_quits_dom in Hquits.
  split; [|by eauto]. by rewrite fold_exportTopics_topic_dom.
Qed.

(** (X15) On an engine without topics [Close] makes one call, the [Close]
    of the store, and returns; it does so however often it is repeated. *)
Theorem Close_without_topics `{!MapRangeOk line} u :
  topics u = ∅ →
  Close u
  = Some (emit StorageClose (set_storage (storage_Close (storage u)) u))
  ∧ ∀ u', Close u = Some u' → topics u' = ∅.
Proof.
  intros Hempty.
  assert (∀ site, range_keys site (topics u) = []) as Hkeys.
  { intros site. apply Permutation_nil_r.
    by rewrite range_keys_perm, Hempty, dom_empty_L, elements_empty. }
  assert (Close u
          = Some (emit StorageClose
                       (set_storage (storage_Close (storage u)) u))) as ->.
  { unfold Close, exportTopics. rewrite Hkeys. simpl. by rewrite Hkeys. }
  split; [done|]. by intros u' [= <-].
Qed.

(** *** From recovery to shutdown *)

Lemma Create_topic_started u cr :
  cr_LineName cr = "" →
  started (topics u) → started (topics (Create u cr).2).
Proof.
  intros Hline Hu. unfold Create.
  rewrite decide_False by (by intros Hne; apply Hne).
  case_decide; [|done].
  destruct (createTopic u (cr_TopicName cr)) as [[err|] u'] eqn:Hcreate;
    simpl.
  - apply createTopic_err in Hcreate. by rewrite Hcreate.
  - apply createTopic_nil in Hcreate as [_ ->]. by apply started_insert.
Qed.

Lemma Create_all_started crs : ∀ u,
  Forall (λ cr, cr_LineName cr = "") crs →
  started (topics u) → started (topics (Create_all u crs)).
Proof.
  induction crs as [|cr crs IH]; intros u Hcrs Hu; [done|].
  apply Forall_cons in Hcrs as [Hcr Hcrs]. unfold Create_all. simpl.
  apply IH; [done|]. by apply Create_topic_started.
Qed.

Lemma Close_started `{!MapRangeOk line} u :
  started (topics u) → is_Some (Close u).
Proof.
  intros Hu. apply not_eq_None_Some. rewrite Close_None.
  pose proof (range_keys_perm RangeClose (topics u)) as Hperm.
  destruct (Close_quits_open (range_keys RangeClose (topics u)) u)
    as (u1 & -> & _); [| |done].
  - rewrite Hperm. apply NoDup_elements.
  - intros key Hkey. rewrite Hperm in Hkey.
    apply elem_of_elements, elem_of_dom in Hkey as [t Ht].
    exists t. split; [done|]. by apply (Hu key t).
Qed.

(** (X16) An engine recovered from any store, on which any number of
    topics are then created by [Create], some of the requests failing or
    not, can be closed: [Close] returns. *)
Theorem recover_create_close `{!MapRangeOk line} st crs :
  Forall (λ cr, cr_LineName cr = "") crs →
  match NewUnitedQueue st with
  | Ok u => is_Some (Close (Create_all u crs))
  | Err _ => False
  end.
Proof.
  intros Hcrs. unfold NewUnitedQueue.
  destruct (loadQueue_started {| topics := ∅; storage := st; trace := [] |}
              started_empty) as (Hnil & Hstarted & _).
  destruct (loadQueue _) as [err u]. simpl in *. subst err.
  by apply Close_started, Create_all_started.
Qed.
End MoreEngineFacts.

(** ** Runs of the further properties *)

Lemma createTopic_encode_failure_run :
  createTopic (Gob0 := failing_queue_gob) Run.fresh "t"
  = (Some ErrEncode, Run.fresh).
Proof.
  apply (createTopic_encode_failure (Gob0 := failing_queue_gob)
           Run.fresh "t" Run.queue_t ErrEncode); by vm_compute.
Defined.


Lemma Create_topic_twice_run :
  Create Run.with_topic Run.topic_t = (Some ErrTopicExisted, Run.with_topic).
Proof.
  apply (Create_topic_twice Run.fresh Run.topic_t Run.with_topic);
    by vm_compute.
Defined.

Lemma genQueueStore_names_run :
  ∃ q, genQueueStore Run.pushed = Ok q
       ∧ NoDup (Topics q)
       ∧ (∀ topicName,
            topicName ∈ Topics q ↔ is_Some (topics Run.pushed !! topicName))
       ∧ length (Topics q) = size (topics Run.pushed).
Proof. exact (genQueueStore_names Run.pushed). Defined.

Lemma Pop_topic_line_run :
  Pop Run.pushed "t/l"
  = match topics Run.pushed !! "t" with
    | None => ((0, [], Some ErrTopicNotExisted), Run.pushed)
    | Some t =>
        run_topic (TopicPop "t" "l") "t"
                  (topic_pop t "l" (storage Run.pushed)) Run.pushed
    end.
Proof. apply (Pop_topic_line Run.pushed "t" "l"); by vm_compute. Defined.

Lemma loadQueue_listing_as_set_run :
  loadQueue ({| topics := ∅; storage := Run.damaged; trace := [] |}
             : Sim.engine)
  = (None,
     fold_left loadQueue_topic ["c"; "a"; "a"; "b"]
       {| topics := ∅; storage := Run.damaged; trace := [] |}).
Proof.
  apply (loadQueue_listing_as_set
           ({| topics := ∅; storage := Run.damaged; trace := [] |}
            : Sim.engine)
           (Wire.put_queueStore Run.listing) ["a"; "b"; "c"]);
    [by vm_compute..|].
  intros topicName. rewrite !elem_of_cons, !elem_of_nil. tauto.
Defined.

Lemma loadTopic_lines_as_set_run :
  loadTopic ({| topics := ∅; storage := Run.damaged; trace := [] |}
             : Sim.engine) "a" Run.record_a
  = loadTopic {| topics := ∅; storage := Run.damaged; trace := [] |} "a"
              {| Head := 0; Tail := 2; Lines := ["m"; "l"; "m"] |}.
Proof.
  apply (loadTopic_lines_as_set (lineStore := Sim.lineStore)); [done..|].
  intros lineName. simpl. rewrite !elem_of_cons, !elem_of_nil. tauto.
Defined.

Lemma Close_panics_iff_run :
  Close Run.shut = None
  ↔ ∃ key t, topics Run.shut !! key = Some t ∧ quit t = ChanClosed.
Proof. exact (Close_panics_iff Run.shut). Defined.

Lemma Close_keeps_names_run :
  dom (topics Run.shut) = dom (topics Run.pushed)
  ∧ ∃ st, storage Run.shut = storage_Close st.
Proof. apply (Close_keeps_names Run.pushed Run.shut). by vm_compute. Defined.

Lemma Close_without_topics_run :
  Close Run.fresh
  = Some (emit StorageClose
               (set_storage (storage_Close (storage Run.fresh)) Run.fresh))
  ∧ ∀ u', Close Run.fresh = Some u' → topics u' = ∅.
Proof. apply (Close_without_topics Run.fresh). by vm_compute. Defined.

Lemma recover_create_close_run :
  match NewUnitedQueue Run.damaged with
  | Ok u =>
      is_Some (Close (Create_all (u : Sim.engine) [Run.topic_t; Run.nothing]))
  | Err _ => False
  end.
Proof.
  apply (recover_create_close (lineStore := Sim.lineStore) Run.damaged
           [Run.topic_t; Run.nothing]).
  by repeat constructor.
Defined.
